(** * Option parsing of the launcher (misc/options.c)

    A shallow embedding of [do_debugmsg], [remove_options], [parse_options],
    [inherit_options], [OPTIONS_Usage] and [OPTIONS_ParseOptions], followed by
    the properties of the scanner, of the inheritance string and of the
    message-filter grammar.

    Conventions of the embedding.
    - A C string is a [string]; a pointer into a C string is the suffix it
      points at, so [p + n] is [advance p n] and [*p] is the head of [p].
    - A NULL-terminated [char *argv[]] is the list of its entries before the
      NULL; [argv[i] == NULL] is [nth_error argv i = None].
    - [ExitProcess] never returns: a computation yields [Returns a] or
      [ExitProcess code].
    - [malloc], [realloc] and [strdup] are taken to succeed.  *)

From Stdlib Require Import String Ascii List ZArith Lia Bool Arith.
Import ListNotations.
Open Scope string_scope.
Open Scope list_scope.

Set Implicit Arguments.

(** ** The C library functions the file calls *)

Module Libc.

(** [p + n] for a pointer [p] into a string. *)
Fixpoint advance (p : string) (n : nat) {struct n} : string :=
  match n, p with
  | O, _ => p
  | S n', String _ p' => advance p' n'
  | S _, EmptyString => EmptyString
  end.

(** The [n] bytes starting at [p] (what [memcmp] and [strncmp] look at). *)
Fixpoint take (n : nat) (p : string) {struct n} : string :=
  match n, p with
  | S n', String c p' => String c (take n' p')
  | _, _ => EmptyString
  end.

(** [strchr(s, c)]: offset of the first [c] in [s], [None] for NULL. *)
Fixpoint strchr (s : string) (c : ascii) : option nat :=
  match s with
  | EmptyString => None
  | String a s' =>
      if Ascii.eqb a c then Some O
      else match strchr s' c with
           | Some k => Some (S k)
           | None => None
           end
  end.

Definition strlen (s : string) : nat := String.length s.

(** [!strcmp(a, b)]. *)
Definition streq (a b : string) : bool := String.eqb a b.

Definition is_upper (c : ascii) : bool :=
  let n := nat_of_ascii c in (65 <=? n)%nat && (n <=? 90)%nat.

Definition is_lower (c : ascii) : bool :=
  let n := nat_of_ascii c in (97 <=? n)%nat && (n <=? 122)%nat.

Definition tolower (c : ascii) : ascii :=
  if is_upper c then ascii_of_nat (nat_of_ascii c + 32) else c.

Definition toupper (c : ascii) : ascii :=
  if is_lower c then ascii_of_nat (nat_of_ascii c - 32) else c.

Fixpoint strmap (f : ascii -> ascii) (s : string) : string :=
  match s with
  | EmptyString => EmptyString
  | String c s' => String (f c) (strmap f s')
  end.

(** Modelled from the spec: [_strupr] is defined in another file; the
    component names are "each upper-cased", here the letters a..z. *)
Definition _strupr (s : string) : string := strmap toupper s.

(** [!strncasecmp(p, key, strlen(key))] for a lower-case [key]. *)
Definition strncaseeq (p key : string) : bool :=
  String.eqb (strmap tolower (take (strlen key) p)) key.

Fixpoint is_delim (delims : string) (c : ascii) : bool :=
  match delims with
  | EmptyString => false
  | String d delims' => Ascii.eqb c d || is_delim delims' c
  end.

Definition starts_token (delims s : string) : bool :=
  match s with
  | EmptyString => false
  | String c _ => negb (is_delim delims c)
  end.

(** The successive results of [strtok(s, delims)], [strtok(NULL, delims)],
    ... up to the first NULL: the maximal runs of non-delimiters. *)
Fixpoint strtok_all (delims s : string) : list string :=
  match s with
  | EmptyString => []
  | String c s' =>
      if is_delim delims c then strtok_all delims s'
      else if starts_token delims s' then
        match strtok_all delims s' with
        | t :: ts => String c t :: ts
        | [] => [String c EmptyString]
        end
      else String c EmptyString :: strtok_all delims s'
  end.

End Libc.
Import Libc.

(** ** Outcomes *)

Inductive outcome (A : Type) : Type :=
| Returns (a : A)
| ExitProcess (code : Z).
Arguments ExitProcess {A} code.

Definition bind {A B : Type} (m : outcome A) (k : A -> outcome B) : outcome B :=
  match m with
  | Returns a => k a
  | ExitProcess code => ExitProcess code
  end.

Notation "x <- m ;; k" := (bind m (fun x => k))
  (at level 61, m at next level, right associativity).

(** ** Program state *)

(** The functions an option descriptor can point at. *)
Inductive handler : Type :=
| fn_do_debugmsg
| fn_MODULE_AddLoadOrderOption
| fn_VERSION_ParseDosVersion
| fn_do_help
| fn_do_managed
| fn_do_version
| fn_VERSION_ParseWinVersion.

(** A [char **] module list: the allocated slots, [None] being the NULL
    that ends the list. *)
Definition module_list : Type := list (option string).

Record state : Type := mkState {
  (** [static char *inherit_str]; [None] is NULL. *)
  inherit_str : option string;
  (** [Options.managed]. *)
  managed : bool;
  (** Every [opt->func(arg)] made by the scanner, oldest first. *)
  calls : list (handler * string);
  (** Every [wine_dbg_add_option(name, set, clear)], oldest first. *)
  dbg_options : list (string * Z * Z);
  (** The four [extern char **] lists of relay32; [None] is NULL. *)
  debug_relay_includelist : option module_list;
  debug_relay_excludelist : option module_list;
  debug_snoop_includelist : option module_list;
  debug_snoop_excludelist : option module_list
}.

Definition initial_state : state :=
  mkState None false [] [] None None None None.

Definition set_inherit_str (st : state) (v : option string) : state :=
  mkState v (managed st) (calls st) (dbg_options st)
          (debug_relay_includelist st) (debug_relay_excludelist st)
          (debug_snoop_includelist st) (debug_snoop_excludelist st).

Definition set_managed (st : state) (v : bool) : state :=
  mkState (inherit_str st) v (calls st) (dbg_options st)
          (debug_relay_includelist st) (debug_relay_excludelist st)
          (debug_snoop_includelist st) (debug_snoop_excludelist st).

Definition log_call (st : state) (h : handler) (arg : string) : state :=
  mkState (inherit_str st) (managed st) (calls st ++ [(h, arg)]) (dbg_options st)
          (debug_relay_includelist st) (debug_relay_excludelist st)
          (debug_snoop_includelist st) (debug_snoop_excludelist st).

(** Modelled from the spec: [wine_dbg_add_option] belongs to the diagnostic
    subsystem; each directive is "forwarded" to it as (classes to set,
    classes to clear, selector), so the call is recorded and nothing more. *)
Definition wine_dbg_add_option (st : state) (name : string) (set clear : Z) : state :=
  mkState (inherit_str st) (managed st) (calls st)
          (dbg_options st ++ [(name, set, clear)])
          (debug_relay_includelist st) (debug_relay_excludelist st)
          (debug_snoop_includelist st) (debug_snoop_excludelist st).

(** The four targets [output] can point at in [do_debugmsg]. *)
Inductive module_slot : Type :=
| relay_include | relay_exclude | snoop_include | snoop_exclude.

Definition store_list (st : state) (slot : module_slot) (l : module_list) : state :=
  match slot with
  | relay_include =>
      mkState (inherit_str st) (managed st) (calls st) (dbg_options st)
              (Some l) (debug_relay_excludelist st)
              (debug_snoop_includelist st) (debug_snoop_excludelist st)
  | relay_exclude =>
      mkState (inherit_str st) (managed st) (calls st) (dbg_options st)
              (debug_relay_includelist st) (Some l)
              (debug_snoop_includelist st) (debug_snoop_excludelist st)
  | snoop_include =>
      mkState (inherit_str st) (managed st) (calls st) (dbg_options st)
              (debug_relay_includelist st) (debug_relay_excludelist st)
              (Some l) (debug_snoop_excludelist st)
  | snoop_exclude =>
      mkState (inherit_str st) (managed st) (calls st) (dbg_options st)
              (debug_relay_includelist st) (debug_relay_excludelist st)
              (debug_snoop_includelist st) (Some l)
  end.

(** ** [do_debugmsg] *)

Module Debugmsg.

Definition debug_class_names : list string := ["fixme"; "err"; "warn"; "trace"].

(** [__DBCL_COUNT], declared in debugtools.h: the size of
    [debug_class_names], which has four initializers. *)
Definition DBCL_COUNT : nat := 4.

(** The value kept by an [unsigned char]. *)
Definition uchar (z : Z) : Z := Z.land z 255.

(** [~0] stored in an [unsigned char]. *)
Definition all_bits : Z := uchar (Z.lnot 0).

(** The [error:] label: the syntax message, then [ExitProcess(1)]. *)
Definition error {A : Type} : outcome A := ExitProcess 1.

(** [p = strchr(opt, '+'); if (!p) p = strchr(opt, '-');] as the offset
    [p - opt]. *)
Definition find_sign (opt : string) : option nat :=
  match strchr opt "+" with
  | Some k => Some k
  | None => strchr opt "-"
  end.

(** Lines 111-113: the offset of the sign, or [None] for [goto error]. *)
Definition split_directive (opt : string) : option nat :=
  match find_sign opt with
  | None => None
  | Some k =>
      match advance opt (S k) with       (* p[1] *)
      | EmptyString => None
      | String _ _ => Some k
      end
  end.

(** The [for (i = 0; i < __DBCL_COUNT; i++)] loop over the class names,
    started at index [i] with [names] left; [name] is the [p - opt] bytes
    at [opt].  The result is the value of [i] when the loop is left. *)
Fixpoint class_loop (names : list string) (i : nat) (name : string) : nat :=
  match names with
  | [] => i
  | n :: names' =>
      if negb (strlen n =? strlen name)%nat then class_loop names' (S i) name
      else if streq name n then i
      else class_loop names' (S i) name
  end.

(** The pieces of [s] that end in a ':' and the piece after the last ':'
    (the successive [s] .. [s2] of the second [while], and the final [s]). *)
Fixpoint colon_fields (s : string) : list string * string :=
  match s with
  | EmptyString => ([], EmptyString)
  | String c s' =>
      let (fs, last) := colon_fields s' in
      if Ascii.eqb c ":" then (EmptyString :: fs, last)
      else match fs with
           | [] => ([], String c last)
           | f :: fs' => (String c f :: fs', last)
           end
  end.

(** The array built at lines 152-172 for the directive [p] (which starts at
    its sign) and the length [l]: one upper-cased copy per piece, the last
    one cut where [p[l]] is overwritten with NUL, then the NULL. *)
Definition build_list (p : string) (l : nat) : module_list :=
  let s := advance p 7 in
  let (fs, last) := colon_fields s in
  let off := (strlen p - strlen last)%nat in
  let last' := if (off <=? l)%nat then take (l - off) last else last in
  map (fun f => Some (_strupr f)) fs ++ [Some (_strupr last'); None].

(** [*p]; the zero character at the end of the string. *)
Definition deref (p : string) : ascii :=
  match p with
  | EmptyString => zero
  | String c _ => c
  end.

(** The choice of [output] from the sign [p[0]] and the letter [p[1]]. *)
Definition select_output (p : string) : module_slot :=
  if Ascii.eqb (deref p) "+" then
    if Ascii.eqb (deref (advance p 1)) "r" then relay_include else snoop_include
  else
    if Ascii.eqb (deref (advance p 1)) "r" then relay_exclude else snoop_exclude.

(** Lines 176-178: [p++], the name "all" becomes the empty string, then the
    call. *)
Definition add_option (st : state) (p : string) (set clear : Z) : state :=
  let p := advance p 1 in
  let p := if streq p "all" then EmptyString else p in
  wine_dbg_add_option st p set clear.

Definition is_plus (p : string) : bool := Ascii.eqb (deref p) "+".

(** One turn of the [do ... while(opt)] loop on the token [opt]. *)
Definition do_directive (st : state) (opt : string) : outcome state :=
  match split_directive opt with
  | None => error
  | Some k =>
      let p := advance opt k in
      if (0 <? k)%nat then
        let i := class_loop debug_class_names 0 (take k opt) in
        if (i =? DBCL_COUNT)%nat then error     (* class name not found *)
        else
          let bit := Z.shiftl 1 (Z.of_nat i) in
          let set := if is_plus p then uchar (Z.lor 0 bit) else 0%Z in
          let clear := if is_plus p then 0%Z else uchar (Z.lor 0 bit) in
          Returns (add_option st p set clear)
      else
        let set := if is_plus p then all_bits else 0%Z in
        let clear := if is_plus p then 0%Z else all_bits in
        if strncaseeq (advance p 1) "relay=" || strncaseeq (advance p 1) "snoop=" then
          let l := match strchr p "," with
                   | Some n => n
                   | None => strlen p
                   end in
          let st1 := store_list st (select_output p) (build_list p l) in
          (* p[6] = NUL *)
          Returns (add_option st1 (take 6 p) all_bits 0%Z)
        else
          Returns (add_option st p set clear)
  end.

Fixpoint do_directives (st : state) (opts : list string) : outcome state :=
  match opts with
  | [] => Returns st
  | opt :: opts' => st1 <- do_directive st opt ;; do_directives st1 opts'
  end.

Definition do_debugmsg (st : state) (arg : string) : outcome state :=
  match strtok_all "," arg with
  | [] => error                     (* the first strtok returned NULL *)
  | opts => do_directives st opts
  end.

End Debugmsg.
Import Debugmsg.

(** ** The option table *)

Record option_descr : Type := mkOption {
  longname : string;
  (** A [char]; the zero character when the option has no short name. *)
  shortname : ascii;
  has_arg : bool;
  inherit : bool;
  func : handler;
  usage : string
}.

Definition newline : string := String (ascii_of_nat 10) EmptyString.

Definition opt_debugmsg : option_descr :=
  mkOption "debugmsg" zero true true fn_do_debugmsg
    "--debugmsg name  Turn debugging-messages on or off".

Definition opt_dll : option_descr :=
  mkOption "dll" zero true true fn_MODULE_AddLoadOrderOption
    "--dll name       Enable or disable built-in DLLs".

Definition opt_dosver : option_descr :=
  mkOption "dosver" zero true true fn_VERSION_ParseDosVersion
    ("--dosver x.xx    DOS version to imitate (e.g. 6.22)" ++ newline ++
     "                    Only valid with --winver win31")%string.

Definition opt_help : option_descr :=
  mkOption "help" "h" false false fn_do_help
    "--help,-h        Show this help message".

Definition opt_managed : option_descr :=
  mkOption "managed" zero false false fn_do_managed
    "--managed        Allow the window manager to manage created windows".

Definition opt_version : option_descr :=
  mkOption "version" "v" false false fn_do_version
    "--version,-v     Display the Wine version".

Definition opt_winver : option_descr :=
  mkOption "winver" zero true true fn_VERSION_ParseWinVersion
    "--winver         Version to imitate (win95,nt40,win31,nt2k,win98,nt351,win30,win20)".

(** The entries before the terminator. *)
Definition option_table : list option_descr :=
  [opt_debugmsg; opt_dll; opt_dosver; opt_help; opt_managed; opt_version; opt_winver].

(** ** The scanner *)

(** How the body of the [for] loop of [parse_options] leaves the matching
    part: [continue], [break], or a descriptor and [equalarg]. *)
Inductive lookup_result : Type :=
| Continue
| Break
| Found (opt : option_descr) (equalarg : option string).

(** The short-name loop of line 237. *)
Fixpoint short_loop (table : list option_descr) (c : ascii) : option option_descr :=
  match table with
  | [] => None
  | opt :: table' =>
      if Ascii.eqb (shortname opt) c then Some opt else short_loop table' c
  end.

(** The long-name loop of lines 244-256; [equal] is the offset [equal - p]. *)
Fixpoint long_loop (table : list option_descr) (p : string) (equal : option nat)
  : option (option_descr * option string) :=
  match table with
  | [] => None
  | opt :: table' =>
      if streq p (longname opt) then Some (opt, None)
      else
        match equal with
        | Some e =>
            if has_arg opt
               && (strlen (longname opt) =? e)%nat
               && streq (take e p) (take e (longname opt))
            then Some (opt, Some (advance p (S e)))
            else long_loop table' p equal
        | None => long_loop table' p equal
        end
  end.

(** Lines 231-258 for the token [argv[i]]. *)
Definition lookup (tok : string) : lookup_result :=
  match tok with
  | String "-" p =>
      match p with
      | String c EmptyString =>                       (* short name *)
          if Ascii.eqb c "-" then Break
          else match short_loop option_table c with
               | Some opt => Found opt None
               | None => Continue
               end
      | _ =>                                          (* long name *)
          let equal := strchr p "=" in
          let '(p, equal) :=
            match p with
            | String "-" p' => (p', option_map Nat.pred equal)
            | _ => (p, equal)
            end in
          match long_loop option_table p equal with
          | Some (opt, equalarg) => Found opt equalarg
          | None => Continue
          end
      end
  | _ => Continue
  end.

(** The two [strcat] loops of [remove_options] (lines 214-218) on the
    [count] tokens copied. *)
Fixpoint strcat_tokens (buf : string) (toks : list string) : string :=
  match toks with
  | [] => buf
  | [t] => (buf ++ t)%string
  | t :: toks' => strcat_tokens (buf ++ t ++ " ")%string toks'
  end.

(** The [if (inherit)] block of [remove_options] on the tokens
    [argv[pos] .. argv[pos+count-1]]. *)
Definition fold_inherit (st : state) (toks : list string) (inh : bool) : state :=
  if inh then
    let buf := match inherit_str st with
               | Some s => (s ++ " ")%string
               | None => EmptyString
               end in
    set_inherit_str st (Some (strcat_tokens buf toks))
  else st.

(** [argv[pos] = a] for [a] not NULL. *)
Fixpoint store (argv : list string) (pos : nat) (a : string) : list string :=
  match argv, pos with
  | [], _ => []
  | _ :: argv', O => a :: argv'
  | b :: argv', S pos' => b :: store argv' pos' a
  end.

(** [while ((argv[pos] = argv[pos+count])) pos++;]: storing the NULL at
    [pos] ends the vector there.  [None] when [fuel] turns are not enough. *)
Fixpoint shift_loop (fuel : nat) (argv : list string) (pos count : nat)
  : option (list string) :=
  match fuel with
  | O => None
  | S fuel' =>
      match nth_error argv (pos + count) with
      | None => Some (firstn pos argv)
      | Some a => shift_loop fuel' (store argv pos a) (S pos) count
      end
  end.

(** [remove_options(argv, pos, count, inherit)]; the shift needs at most
    [length argv + 1] turns (see [shift_loop_fuel]). *)
Definition remove_options (st : state) (argv : list string) (pos count : nat)
           (inh : bool) : state * list string :=
  (fold_inherit st (firstn count (skipn pos argv)) inh,
   match shift_loop (S (length argv)) argv pos count with
   | Some argv' => argv'
   | None => argv
   end).

Definition map_outcome {A B : Type} (f : A -> B) (m : outcome A) : outcome B :=
  x <- m ;; Returns (f x).

Section Scanner.

(** The three handlers defined in other files
    ([MODULE_AddLoadOrderOption], [VERSION_ParseDosVersion],
    [VERSION_ParseWinVersion]): whether a call with this argument ends in
    [ExitProcess], and with which code.  Their own effects are outside the
    state of this file. *)
Variable ext : handler -> string -> option Z.

(** [OPTIONS_Usage]: the usage text, then [ExitProcess(0)]. *)
Definition OPTIONS_Usage {A : Type} : outcome A := ExitProcess 0.

Definition do_help (st : state) (arg : string) : outcome state := OPTIONS_Usage.

Definition do_version (st : state) (arg : string) : outcome state := ExitProcess 0.

Definition do_managed (st : state) (arg : string) : outcome state :=
  Returns (set_managed st true).

Definition external (h : handler) (st : state) (arg : string) : outcome state :=
  match ext h arg with
  | Some code => ExitProcess code
  | None => Returns st
  end.

(** [opt->func(arg)]. *)
Definition call (h : handler) (st : state) (arg : string) : outcome state :=
  let st := log_call st h arg in
  match h with
  | fn_do_debugmsg => do_debugmsg st arg
  | fn_do_help => do_help st arg
  | fn_do_managed => do_managed st arg
  | fn_do_version => do_version st arg
  | _ => external h st arg
  end.

(** The [for] loop of [parse_options], entered with index [i]; [None] when
    [fuel] turns are not enough. *)
Fixpoint parse_loop (fuel : nat) (st : state) (argv : list string) (i : nat)
  : option (outcome (state * list string)) :=
  match fuel with
  | O => None
  | S fuel' =>
      match nth_error argv i with
      | None => Some (Returns (st, argv))
      | Some tok =>
          match lookup tok with
          | Continue => parse_loop fuel' st argv (S i)
          | Break => Some (Returns (st, argv))
          | Found opt equalarg =>
              let after (arg : string) (count : nat) :=
                match call (func opt) st arg with
                | ExitProcess code => Some (ExitProcess code)
                | Returns st1 =>
                    let '(st2, argv2) := remove_options st1 argv i count (inherit opt) in
                    parse_loop fuel' st2 argv2 i          (* i--, then i++ *)
                end in
              match equalarg with
              | Some v => after v 1%nat
              | None =>
                  match (if has_arg opt then nth_error argv (S i) else None) with
                  | Some v => after v 2%nat
                  | None => after EmptyString 1%nat
                  end
              end
          end
      end
  end.

(** [parse_options(argv)]: each turn of the loop either moves [i] forward
    or shortens [argv], so [length argv + 1] turns are enough
    (see [parse_loop_fuel]). *)
Definition parse_options (st : state) (argv : list string)
  : outcome (state * list string) :=
  match parse_loop (S (length argv)) st argv 0 with
  | Some r => r
  | None => Returns (st, argv)
  end.

Definition blanks : string := String " " (String (ascii_of_nat 9) EmptyString).

(** [inherit_options(buffer)]: at most 255 tokens, then the scanner, then
    the check of [argv[0]]. *)
Definition inherit_options (st : state) (buffer : string) : outcome state :=
  let argv := firstn 255 (strtok_all blanks buffer) in
  r <- parse_options st argv ;;
  match snd r with
  | [] => Returns (fst r)
  | _ :: _ => OPTIONS_Usage          (* an option remains *)
  end.

(** The loop of lines 330-342 over [argv[1]], [argv[2]], ... *)
Fixpoint check_remaining (args : list string) : outcome (list string) :=
  match args with
  | [] => Returns []
  | a :: args' =>
      if streq a "--" then Returns args'            (* removed, then break *)
      else match a with
           | String "-" _ => OPTIONS_Usage          (* Unknown option *)
           | _ => map_outcome (cons a) (check_remaining args')
           end
  end.

(** The size of [buffer] in [OPTIONS_ParseOptions]. *)
Definition buffer_size : nat := 1024.

(** Modelled from the spec: [GetEnvironmentVariableA] is defined in another
    file; WINEOPTIONS is "read once at startup into a bounded buffer".
    [buffer] has room for [buffer_size - 1] bytes and the NUL that ends
    them: a value that fits is there whole, and of a longer value the
    first [buffer_size - 1] bytes.  [None] is the variable not set. *)
Definition GetEnvironmentVariableA (env : option string) : option string :=
  match env with
  | Some value => Some (take (buffer_size - 1) value)
  | None => None
  end.

(** The first statement of [OPTIONS_ParseOptions]: the replay, when
    WINEOPTIONS is set ([env] is not [None]) and [buffer] is not empty. *)
Definition inherit_from_env (st : state) (env : option string) : outcome state :=
  match GetEnvironmentVariableA env with
  | Some (String c b) => inherit_options st (String c b)
  | _ => Returns st
  end.

(** [OPTIONS_ParseOptions(argv)] with [argv[0] = argv0] and [argv + 1 = args];
    [env] is the value of WINEOPTIONS in the environment.  The result
    is the state, the value given to [SetEnvironmentVariableA], and
    [app_argv]. *)
Definition OPTIONS_ParseOptions (st : state) (env : option string)
           (argv0 : string) (args : list string)
  : outcome (state * option string * list string) :=
  st1 <- inherit_from_env st env ;;
  r <- parse_options st1 args ;;
  args' <- check_remaining (snd r) ;;
  Returns (fst r, inherit_str (fst r), argv0 :: args').

(** The loop of [parse_options] by recursion on the tokens from [argv[i]]
    on; the result lists the tokens left from there. *)
Fixpoint scan (st : state) (rest : list string) : outcome (state * list string) :=
  match rest with
  | [] => Returns (st, [])
  | tok :: rest' =>
      match lookup tok with
      | Continue => r <- scan st rest' ;; Returns (fst r, tok :: snd r)
      | Break => Returns (st, rest)
      | Found opt (Some v) =>
          st1 <- call (func opt) st v ;;
          scan (fold_inherit st1 [tok] (inherit opt)) rest'
      | Found opt None =>
          let flag :=
            st1 <- call (func opt) st EmptyString ;;
            scan (fold_inherit st1 [tok] (inherit opt)) rest' in
          match rest' with
          | v :: rest'' =>
              if has_arg opt then
                st1 <- call (func opt) st v ;;
                scan (fold_inherit st1 [tok; v] (inherit opt)) rest''
              else flag
          | [] => flag
          end
      end
  end.

End Scanner.

(** ** Notions used in the statements *)

(** External handlers that always return. *)
Definition no_exit : handler -> string -> option Z := fun _ _ => None.

(** [merge l r w]: [w] is an interleaving of [l] and [r], each in its order. *)
Inductive merge {A : Type} : list A -> list A -> list A -> Prop :=
| merge_nil : merge [] [] []
| merge_left x l r w : merge l r w -> merge (x :: l) r (x :: w)
| merge_right x l r w : merge l r w -> merge l (x :: r) (x :: w).

(** [consumed g opt arg]: the tokens [g] are an option trigger for [opt],
    with its value when it is a token of its own, and [arg] is the value
    the handler gets. *)
Inductive consumed : list string -> option_descr -> string -> Prop :=
| consumed_inline tok opt v :
    lookup tok = Found opt (Some v) -> consumed [tok] opt v
| consumed_next tok opt v :
    lookup tok = Found opt None -> has_arg opt = true -> consumed [tok; v] opt v
| consumed_alone tok opt :
    lookup tok = Found opt None -> consumed [tok] opt EmptyString.

(** The groups of consumed tokens against the handler calls they caused. *)
Definition consumed_call (g : list string) (c : handler * string) : Prop :=
  exists opt, consumed g opt (snd c) /\ fst c = func opt.

Definition dashed (tok : string) : bool :=
  match tok with
  | String "-" _ => true
  | _ => false
  end.

Section Runs.

Variable ext : handler -> string -> option Z.

(** The scanning passes that return, as a relation: from state [st] and
    tokens [rest] to the final state and the tokens left. *)
Inductive Scans : state -> list string -> state -> list string -> Prop :=
| Scans_end st : Scans st [] st []
| Scans_skip st tok rest st' out :
    lookup tok = Continue ->
    Scans st rest st' out ->
    Scans st (tok :: rest) st' (tok :: out)
| Scans_break st tok rest :
    lookup tok = Break ->
    Scans st (tok :: rest) st (tok :: rest)
| Scans_match st g opt arg rest st1 st' out :
    consumed g opt arg ->
    call ext (func opt) st arg = Returns st1 ->
    Scans (fold_inherit st1 g (inherit opt)) rest st' out ->
    Scans st (g ++ rest) st' out.

End Runs.

(** [no_delim delims s]: no character of [s] is one of [delims]. *)
Fixpoint no_delim (delims s : string) : bool :=
  match s with
  | EmptyString => true
  | String c s' => negb (is_delim delims c) && no_delim delims s'
  end.

(** The pieces of [s] between occurrences of [sep], as the specification
    words it: "split on [sep]". *)
Fixpoint split_on (sep : ascii) (s : string) : list string :=
  match s with
  | EmptyString => [EmptyString]
  | String c s' =>
      if Ascii.eqb c sep then EmptyString :: split_on sep s'
      else match split_on sep s' with
           | f :: fs => String c f :: fs
           | [] => [String c EmptyString]
           end
  end.

(** The split point as the specification words it: the first character
    that is '+' or '-'. *)
Fixpoint first_sign_spec (d : string) : option nat :=
  match d with
  | EmptyString => None
  | String c d' =>
      if Ascii.eqb c "+" || Ascii.eqb c "-" then Some O
      else option_map S (first_sign_spec d')
  end.

(** Malformed as the specification words it: no sign, or nothing after it. *)
Definition malformed_spec (d : string) : bool :=
  match first_sign_spec d with
  | None => true
  | Some k => (strlen d <=? S k)%nat
  end.

(** [first_at c d k]: the first [c] of [d] is at offset [k]. *)
Definition first_at (c : ascii) (d : string) (k : nat) : Prop :=
  String.get k d = Some c /\ forall j, j < k -> String.get j d <> Some c.

Definition absent (c : ascii) (d : string) : Prop :=
  forall j, String.get j d <> Some c.

(** The split point of the code: the first '+', or without any '+' the
    first '-'. *)
Definition sign_at (d : string) (k : nat) : Prop :=
  first_at "+" d k \/ (absent "+" d /\ first_at "-" d k).

(** The list of a subsystem and a polarity. *)
Definition slot_of (relay plus : bool) : module_slot :=
  match relay, plus with
  | true, true => relay_include
  | true, false => relay_exclude
  | false, true => snoop_include
  | false, false => snoop_exclude
  end.

Definition handler_index (h : handler) : nat :=
  match h with
  | fn_do_debugmsg => 0
  | fn_MODULE_AddLoadOrderOption => 1
  | fn_VERSION_ParseDosVersion => 2
  | fn_do_help => 3
  | fn_do_managed => 4
  | fn_do_version => 5
  | fn_VERSION_ParseWinVersion => 6
  end.

(** [inheritable h]: the table has an entry with handler [h] and [inherit]
    set. *)
Definition inheritable (h : handler) : bool :=
  existsb (fun o => (handler_index (func o) =? handler_index h)%nat && inherit o)
          option_table.

(** The size of [inherit_str]: 0 for NULL, else one more than its length. *)
Definition buf_size (b : option string) : nat :=
  match b with
  | None => 0
  | Some s => S (strlen s)
  end.

(** An argument vector made of inheritable options only, each with its
    value: inline after '=', or as the next token. *)
Inductive only_inheritable : list string -> Prop :=
| only_inheritable_nil : only_inheritable []
| only_inheritable_inline tok opt v rest :
    lookup tok = Found opt (Some v) ->
    inherit opt = true ->
    only_inheritable rest ->
    only_inheritable (tok :: rest)
| only_inheritable_next tok opt v rest :
    lookup tok = Found opt None ->
    has_arg opt = true ->
    inherit opt = true ->
    only_inheritable rest ->
    only_inheritable (tok :: v :: rest).

(** A token that survives the join with spaces and the [strtok] on blanks:
    not empty, no space and no tab in it. *)
Definition plain_token (tok : string) : Prop :=
  tok <> EmptyString /\ no_delim blanks tok = true.

(** [inherit_str] after the tokens [toks] have been folded into [b]. *)
Definition append_buf (b : option string) (toks : list string) : option string :=
  match toks with
  | [] => b
  | _ :: _ =>
      Some (strcat_tokens match b with
                          | Some s => (s ++ " ")%string
                          | None => EmptyString
                          end toks)
  end.

(** The tokens [kept] before the index, put back in front of a result. *)
Definition put_back (kept : list string) (r : state * list string) : state * list string :=
  (fst r, kept ++ snd r).

(** [frame st st']: the scanner's own variables are the same in both. *)
Definition frame (st st' : state) : Prop :=
  inherit_str st' = inherit_str st /\ managed st' = managed st /\ calls st' = calls st.

(** [all_delims delims s]: every character of [s] is one of [delims], so
    [strtok] finds no token in [s]. *)
Fixpoint all_delims (delims s : string) : bool :=
  match s with
  | EmptyString => true
  | String c s' => is_delim delims c && all_delims delims s'
  end.

(** One match of the scanner: the tokens consumed, the descriptor, and the
    value handed to the handler. *)
Definition match_record : Type := (list string * option_descr * string)%type.

Definition group_of (m : match_record) : list string := fst (fst m).

Definition descr_of (m : match_record) : option_descr := snd (fst m).

Definition call_of (m : match_record) : handler * string := (func (descr_of m), snd m).

(** What the loop of [parse_options] matches in [argv], in order, and the
    tokens it leaves: the matching part and the consumed widths of lines
    229-275, without the handlers and the state. *)
Fixpoint matches (argv : list string) : list match_record * list string :=
  match argv with
  | [] => ([], [])
  | tok :: rest =>
      match lookup tok with
      | Continue => let (ms, out) := matches rest in (ms, tok :: out)
      | Break => ([], argv)
      | Found opt (Some v) =>
          let (ms, out) := matches rest in (([tok], opt, v) :: ms, out)
      | Found opt None =>
          let alone :=
            let (ms, out) := matches rest in (([tok], opt, EmptyString) :: ms, out) in
          match rest with
          | v :: rest' =>
              if has_arg opt then
                let (ms, out) := matches rest' in (([tok; v], opt, v) :: ms, out)
              else alone
          | [] => alone
          end
      end
  end.

Definition matched (argv : list string) : list match_record := fst (matches argv).

Definition unmatched (argv : list string) : list string := snd (matches argv).

(** The tokens of the matches against an inheritable descriptor. *)
Definition inherited_tokens (ms : list match_record) : list string :=
  concat (map group_of (filter (fun m => inherit (descr_of m)) ms)).

(** A vector without its last token when that token is empty: what the
    join with spaces and the [strtok] on blanks keep of a vector that ends
    in an empty value. *)
Definition drop_final_empty (argv : list string) : list string :=
  if streq (last argv EmptyString) EmptyString then removelast argv else argv.

(** [same_effects st st']: everything but the inheritance string is the
    same in both states. *)
Definition same_effects (st st' : state) : Prop :=
  managed st' = managed st
  /\ calls st' = calls st
  /\ dbg_options st' = dbg_options st
  /\ debug_relay_includelist st' = debug_relay_includelist st
  /\ debug_relay_excludelist st' = debug_relay_excludelist st
  /\ debug_snoop_includelist st' = debug_snoop_includelist st
  /\ debug_snoop_excludelist st' = debug_snoop_excludelist st.

(** The calls of [do_managed] among the handler calls [cs]. *)
Definition calls_managed (cs : list (handler * string)) : bool :=
  existsb (fun c => (handler_index (fst c) =? handler_index fn_do_managed)%nat) cs.

(** The list [output] points at, read back. *)
Definition load_list (st : state) (slot : module_slot) : option module_list :=
  match slot with
  | relay_include => debug_relay_includelist st
  | relay_exclude => debug_relay_excludelist st
  | snoop_include => debug_snoop_includelist st
  | snoop_exclude => debug_snoop_excludelist st
  end.

(** The selector handed to [wine_dbg_add_option] for the text [x] after
    the sign. *)
Definition selector (x : string) : string :=
  if streq x "all" then EmptyString else x.

(** The first [for] loop of [remove_options] (lines 201-202): the sum of
    the lengths of the tokens, one more for each. *)
Fixpoint tokens_len (toks : list string) : nat :=
  match toks with
  | [] => 0
  | t :: toks' => strlen t + 1 + tokens_len toks'
  end.

(** The size asked from [realloc] (line 205) or [malloc] (line 211). *)
Definition alloc_size (st : state) (toks : list string) : nat :=
  match inherit_str st with
  | Some s => strlen s + 1 + tokens_len toks
  | None => tokens_len toks
  end.

(** The first [while] of the module block (lines 155-156), entered with the
    count [i]: one more for each ':' of [s]. *)
Fixpoint count_slots (s : string) (i : nat) : nat :=
  match s with
  | EmptyString => i
  | String c s' => count_slots s' (if Ascii.eqb c ":" then S i else i)
  end.

(** ** The scanner loop and its recursive form *)

Lemma nth_error_past {A : Type} (kept rest : list A) (k : nat) :
  nth_error (kept ++ rest) (length kept + k) = nth_error rest k.
Proof.
  induction kept as [|a kept IH]; simpl; auto.
Qed.

Lemma skipn_past {A : Type} (kept rest : list A) (k : nat) :
  skipn (length kept + k) (kept ++ rest) = skipn k rest.
Proof.
  induction kept as [|a kept IH]; simpl; auto.
Qed.

Lemma firstn_kept {A : Type} (kept rest : list A) :
  firstn (length kept) (kept ++ rest) = kept.
Proof.
  induction kept as [|a kept IH]; simpl; [destruct rest|]; auto.
  now rewrite IH.
Qed.

Lemma store_length (argv : list string) (pos : nat) (a : string) :
  length (store argv pos a) = length argv.
Proof.
  revert pos. induction argv as [|b argv IH]; intros [|pos]; simpl; auto.
Qed.

Lemma store_firstn (argv : list string) (pos : nat) (a : string) :
  pos < length argv ->
  firstn (S pos) (store argv pos a) = firstn pos argv ++ [a].
Proof.
  revert pos. induction argv as [|b argv IH]; intros pos Hpos; [simpl in Hpos; lia|].
  destruct pos as [|pos].
  - simpl. now destruct argv.
  - simpl in Hpos. cbn [store firstn app]. f_equal. apply IH. lia.
Qed.

Lemma store_skipn (argv : list string) (pos k : nat) (a : string) :
  skipn (S pos + k) (store argv pos a) = skipn (S pos + k) argv.
Proof.
  revert pos. induction argv as [|b argv IH]; intros [|pos]; simpl; auto.
  apply IH.
Qed.

Lemma skipn_nth_error {A : Type} (l : list A) (n : nat) (a : A) :
  nth_error l n = Some a -> skipn n l = a :: skipn (S n) l.
Proof.
  revert n. induction l as [|b l IH]; intros [|n]; simpl; try discriminate.
  - intros H; injection H as ->. reflexivity.
  - apply IH.
Qed.

(** The shift loop closes the gap of [count] entries at [pos]. *)
Lemma shift_loop_closes_gap (fuel : nat) :
  forall argv pos count,
    0 < count ->
    pos + count <= length argv ->
    length argv - (pos + count) < fuel ->
    shift_loop fuel argv pos count = Some (firstn pos argv ++ skipn (pos + count) argv).
Proof.
  induction fuel as [|fuel IH]; intros argv pos count Hc Hle Hfuel; [lia|].
  cbn [shift_loop].
  destruct (nth_error argv (pos + count)) as [a|] eqn:E.
  - assert (Hlt : pos + count < length argv).
    { apply nth_error_Some. congruence. }
    rewrite IH by (rewrite ?store_length; lia).
    rewrite store_firstn by lia.
    rewrite store_skipn.
    replace (S pos + count) with (S (pos + count)) by lia.
    rewrite (skipn_nth_error _ _ E), <- app_assoc. reflexivity.
  - apply nth_error_None in E.
    rewrite skipn_all2 by lia. now rewrite app_nil_r.
Qed.

Lemma shift_loop_fuel (argv : list string) (pos count : nat) :
  0 < count ->
  pos + count <= length argv ->
  shift_loop (S (length argv)) argv pos count
  = Some (firstn pos argv ++ skipn (pos + count) argv).
Proof.
  intros Hc Hle. apply shift_loop_closes_gap; lia.
Qed.

Lemma remove_options_at (st : state) (kept rest : list string) (count : nat) (inh : bool) :
  0 < count ->
  count <= length rest ->
  remove_options st (kept ++ rest) (length kept) count inh
  = (fold_inherit st (firstn count rest) inh, kept ++ skipn count rest).
Proof.
  intros Hc Hle.
  unfold remove_options.
  rewrite shift_loop_fuel by (rewrite ?length_app; lia).
  rewrite firstn_kept, skipn_past.
  rewrite <- (Nat.add_0_r (length kept)) at 1.
  now rewrite skipn_past.
Qed.

Lemma map_outcome_put_back_nil (m : outcome (state * list string)) :
  map_outcome (put_back []) m = m.
Proof.
  destruct m as [[st l]|c]; reflexivity.
Qed.

Section Refinement.

Variable ext : handler -> string -> option Z.

Lemma parse_loop_scan (fuel : nat) :
  forall st kept rest,
    length rest < fuel ->
    parse_loop ext fuel st (kept ++ rest) (length kept)
    = Some (map_outcome (put_back kept) (scan ext st rest)).
Proof.
  induction fuel as [|fuel IH]; intros st kept rest Hlen; [lia|].
  cbn [parse_loop].
  destruct rest as [|tok rest].
  { rewrite <- (Nat.add_0_r (length kept)), nth_error_past. reflexivity. }
  assert (H0 : nth_error (kept ++ tok :: rest) (length kept) = Some tok).
  { rewrite <- (Nat.add_0_r (length kept)), nth_error_past. reflexivity. }
  assert (H1 : nth_error (kept ++ tok :: rest) (S (length kept)) = nth_error rest 0).
  { replace (S (length kept)) with (length kept + 1) by lia.
    rewrite nth_error_past. reflexivity. }
  rewrite H0, H1. cbn [scan]. simpl in Hlen.
  destruct (lookup tok) as [| |opt equalarg] eqn:Hlk.
  - (* continue *)
    replace (kept ++ tok :: rest) with ((kept ++ [tok]) ++ rest)
      by (rewrite <- app_assoc; reflexivity).
    replace (S (length kept)) with (length (kept ++ [tok]))
      by (rewrite length_app; simpl; lia).
    rewrite IH by lia.
    destruct (scan ext st rest) as [[st' out]|c]; cbn; [|reflexivity].
    unfold put_back; cbn. now rewrite <- app_assoc.
  - (* break *)
    reflexivity.
  - assert (Hstep : forall arg count,
               count <= S (length rest) -> 0 < count ->
               match call ext (func opt) st arg with
               | Returns st1 =>
                   let '(st2, argv2) :=
                     remove_options st1 (kept ++ tok :: rest) (length kept)
                                    count (inherit opt) in
                   parse_loop ext fuel st2 argv2 (length kept)
               | ExitProcess code => Some (ExitProcess code)
               end
               = Some (map_outcome (put_back kept)
                         (st1 <- call ext (func opt) st arg ;;
                          scan ext (fold_inherit st1 (firstn count (tok :: rest))
                                                 (inherit opt))
                               (skipn count (tok :: rest))))).
    { intros arg count Hc Hpos.
      destruct (call ext (func opt) st arg) as [st1|c]; [|reflexivity].
      rewrite remove_options_at by (cbn [Datatypes.length]; lia). cbn [bind].
      apply IH.
      rewrite length_skipn. cbn [Datatypes.length]. lia. }
    destruct equalarg as [v|].
    + rewrite Hstep by lia. reflexivity.
    + destruct rest as [|v rest'].
      * destruct (has_arg opt); cbn [nth_error]; rewrite Hstep by (simpl; lia);
          reflexivity.
      * destruct (has_arg opt); cbn [nth_error]; rewrite Hstep by (simpl; lia);
          reflexivity.
Qed.

(** Enough fuel: the loop started by [parse_options] always ends. *)
Lemma parse_loop_fuel (st : state) (argv : list string) :
  parse_loop ext (S (length argv)) st argv 0 = Some (scan ext st argv).
Proof.
  change (parse_loop ext (S (length argv)) st argv 0)
    with (parse_loop ext (S (length argv)) st ([] ++ argv) (length (@nil string))).
  rewrite parse_loop_scan by lia.
  now rewrite map_outcome_put_back_nil.
Qed.

Lemma parse_options_scan (st : state) (argv : list string) :
  parse_options ext st argv = scan ext st argv.
Proof.
  unfold parse_options. now rewrite parse_loop_fuel.
Qed.

End Refinement.

(** ** What the handlers leave alone *)

Lemma frame_refl (st : state) : frame st st.
Proof. repeat split. Qed.

Lemma frame_trans (a b c : state) : frame a b -> frame b c -> frame a c.
Proof.
  unfold frame. intros (H1 & H2 & H3) (H4 & H5 & H6).
  repeat split; congruence.
Qed.

Lemma frame_add_option (st : state) (p : string) (set clear : Z) :
  frame st (add_option st p set clear).
Proof. repeat split. Qed.

Lemma frame_store_list (st : state) (slot : module_slot) (l : module_list) :
  frame st (store_list st slot l).
Proof. destruct slot; repeat split. Qed.

Lemma do_directive_frame (st st' : state) (opt : string) :
  do_directive st opt = Returns st' -> frame st st'.
Proof.
  unfold do_directive, error.
  destruct (split_directive opt) as [k|]; [|discriminate].
  destruct (0 <? k)%nat.
  - destruct (_ =? DBCL_COUNT)%nat; [discriminate|].
    intros H; injection H as <-. apply frame_add_option.
  - destruct (_ || _); intros H; injection H as <-.
    + eapply frame_trans; [apply frame_store_list | apply frame_add_option].
    + apply frame_add_option.
Qed.

Lemma do_directives_frame (opts : list string) :
  forall st st', do_directives st opts = Returns st' -> frame st st'.
Proof.
  induction opts as [|opt opts IH]; intros st st'; simpl.
  - intros H; injection H as <-. apply frame_refl.
  - destruct (do_directive st opt) as [st1|c] eqn:E; simpl; [|discriminate].
    intros H. eapply frame_trans; [eapply do_directive_frame; eauto | eauto].
Qed.

Lemma do_debugmsg_frame (st st' : state) (arg : string) :
  do_debugmsg st arg = Returns st' -> frame st st'.
Proof.
  unfold do_debugmsg, error.
  destruct (strtok_all "," arg) as [|o os]; [discriminate|].
  apply do_directives_frame.
Qed.

Section Calls.

Variable ext : handler -> string -> option Z.

Lemma call_returns (h : handler) (st st1 : state) (arg : string) :
  call ext h st arg = Returns st1 ->
  inherit_str st1 = inherit_str st /\ calls st1 = calls st ++ [(h, arg)].
Proof.
  unfold call, external, do_help, do_version, do_managed, OPTIONS_Usage.
  destruct h; try discriminate;
    try (destruct (ext _ arg); [discriminate|]);
    try (intros H; injection H as <-; split; reflexivity).
  intros H. apply do_debugmsg_frame in H.
  destruct H as (H1 & _ & H3). split; [exact H1 | exact H3].
Qed.

Lemma fold_inherit_calls (st : state) (g : list string) (inh : bool) :
  calls (fold_inherit st g inh) = calls st.
Proof. destruct inh; reflexivity. Qed.

(** Every pass that returns is a run of [Scans]. *)
Lemma scan_Scans (n : nat) :
  forall rest st st' out,
    length rest <= n ->
    scan ext st rest = Returns (st', out) ->
    Scans ext st rest st' out.
Proof.
  induction n as [|n IH]; intros rest st st' out Hn.
  - destruct rest; [|simpl in Hn; lia].
    simpl. intros H; injection H as <- <-. constructor.
  - destruct rest as [|tok rest].
    { simpl. intros H; injection H as <- <-. constructor. }
    simpl in Hn. cbn [scan].
    destruct (lookup tok) as [| |opt [v|]] eqn:Hlk.
    + destruct (scan ext st rest) as [[st2 out2]|c] eqn:E; cbn; [|discriminate].
      intros H; injection H as <- <-.
      apply Scans_skip; [exact Hlk | apply IH; [lia | exact E]].
    + intros H; injection H as <- <-. now apply Scans_break.
    + destruct (call ext (func opt) st v) as [st1|c] eqn:Ec; cbn; [|discriminate].
      intros H.
      change (tok :: rest) with ([tok] ++ rest).
      eapply Scans_match; [apply consumed_inline; exact Hlk | exact Ec |].
      apply IH; [lia | exact H].
    + assert (Hflag :
                (st1 <- call ext (func opt) st EmptyString ;;
                 scan ext (fold_inherit st1 [tok] (inherit opt)) rest)
                = Returns (st', out) ->
                Scans ext st (tok :: rest) st' out).
      { destruct (call ext (func opt) st EmptyString) as [st1|c] eqn:Ec; cbn;
          [|discriminate].
        intros H.
        change (tok :: rest) with ([tok] ++ rest).
        eapply Scans_match; [apply consumed_alone; exact Hlk | exact Ec |].
        apply IH; [lia | exact H]. }
      destruct rest as [|v rest']; [exact Hflag|].
      destruct (has_arg opt) eqn:Harg; [|exact Hflag].
      destruct (call ext (func opt) st v) as [st1|c] eqn:Ec; cbn; [|discriminate].
      intros H.
      change (tok :: v :: rest') with ([tok; v] ++ rest').
      eapply Scans_match; [apply consumed_next; [exact Hlk | exact Harg] | exact Ec |].
      apply IH; [simpl in Hn; lia | exact H].
Qed.

Lemma parse_options_Scans (st st' : state) (argv out : list string) :
  parse_options ext st argv = Returns (st', out) -> Scans ext st argv st' out.
Proof.
  rewrite parse_options_scan. now apply scan_Scans with (n := length argv).
Qed.

(** Tokens the matching part answers [continue] for are stepped over. *)
Lemma scan_skips (pre : list string) :
  forall st rest,
    Forall (fun t => lookup t = Continue) pre ->
    scan ext st (pre ++ rest) = map_outcome (put_back pre) (scan ext st rest).
Proof.
  induction pre as [|t pre IH]; intros st rest Hpre.
  - now rewrite map_outcome_put_back_nil.
  - inversion Hpre as [|? ? Ht Hpre']; subst.
    cbn [app scan]. rewrite Ht, IH by assumption.
    destruct (scan ext st rest) as [[st' out]|c]; reflexivity.
Qed.

End Calls.

Lemma lookup_undashed (tok : string) : dashed tok = false -> lookup tok = Continue.
Proof.
  destruct tok as [|c tok]; [reflexivity|].
  unfold dashed, lookup.
  destruct c as [[] [] [] [] [] [] [] []]; try reflexivity; discriminate.
Qed.

Lemma merge_all_left {A : Type} (l : list A) : merge l [] l.
Proof. induction l; constructor; auto. Qed.

Lemma merge_app_right {A : Type} (g l r w : list A) :
  merge l r w -> merge l (g ++ r) (g ++ w).
Proof. induction g; simpl; [auto | constructor; auto]. Qed.

(** ** The scanner: what a pass leaves and what it consumes *)

Lemma Scans_consumed (ext : handler -> string -> option Z)
      (st st' : state) (rest out : list string) :
  Scans ext st rest st' out ->
  exists groups cs,
    calls st' = calls st ++ cs
    /\ Forall2 consumed_call groups cs
    /\ merge out (concat groups) rest.
Proof.
  induction 1 as [st | st tok rest st' out Hlk _ IH | st tok rest Hlk
                 | st g opt arg rest st1 st' out Hg Hcall _ IH].
  - exists [], []. rewrite app_nil_r. repeat split; constructor.
  - destruct IH as (groups & cs & Hc & Hf & Hm).
    exists groups, cs. repeat split; auto. now constructor.
  - exists [], []. rewrite app_nil_r. repeat split; [constructor|].
    apply merge_all_left.
  - destruct IH as (groups & cs & Hc & Hf & Hm).
    apply call_returns in Hcall. destruct Hcall as [_ Hcall].
    rewrite fold_inherit_calls, Hcall, <- app_assoc in Hc.
    exists (g :: groups), ((func opt, arg) :: cs). repeat split.
    + exact Hc.
    + constructor; [|exact Hf]. exists opt. split; [exact Hg | reflexivity].
    + simpl. now apply merge_app_right.
Qed.

(** C9. After a pass of [parse_options] that returns, the argument vector
    is the original one without the tokens consumed as option triggers or as
    their values, in the original order: the original vector is an
    interleaving of the vector left and of the consumed groups, and every
    group is the trigger (and value token) of one handler call, in call
    order.  A vector with no token that starts with '-' comes back unchanged,
    with the state, hence the record of handler calls, untouched. *)
Theorem parse_options_keeps_unconsumed
        (ext : handler -> string -> option Z) (st : state) (argv : list string) :
  (forall st' argv',
      parse_options ext st argv = Returns (st', argv') ->
      exists groups cs,
        calls st' = calls st ++ cs
        /\ Forall2 consumed_call groups cs
        /\ merge argv' (concat groups) argv)
  /\ (Forall (fun t => dashed t = false) argv ->
      parse_options ext st argv = Returns (st, argv)).
Proof.
  split.
  - intros st' argv' H. apply parse_options_Scans in H.
    now apply Scans_consumed in H.
  - intros Hall. rewrite parse_options_scan.
    rewrite <- (app_nil_r argv) at 1.
    rewrite scan_skips.
    + cbn. unfold put_back. cbn. now rewrite app_nil_r.
    + eapply Forall_impl; [|exact Hall]. intros t. apply lookup_undashed.
Qed.

Lemma parse_options_keeps_unconsumed_witness :
  (exists groups cs,
      [(fn_MODULE_AddLoadOrderOption, "foo"); (fn_do_managed, EmptyString)] = [] ++ cs
      /\ Forall2 consumed_call groups cs
      /\ merge ["a"; "app.exe"] (concat groups) ["a"; "--dll"; "foo"; "app.exe"; "-managed"])
  /\ parse_options no_exit initial_state ["wine.exe"; "a=b"]
     = Returns (initial_state, ["wine.exe"; "a=b"]).
Proof.
  split.
  - apply (proj1 (parse_options_keeps_unconsumed no_exit initial_state
                    ["a"; "--dll"; "foo"; "app.exe"; "-managed"])
                 (mkState (Some "--dll foo") true
                          [(fn_MODULE_AddLoadOrderOption, "foo");
                           (fn_do_managed, EmptyString)] [] None None None None)
                 ["a"; "app.exe"]).
    reflexivity.
  - apply (proj2 (parse_options_keeps_unconsumed no_exit initial_state
                    ["wine.exe"; "a=b"])).
    repeat constructor.
Defined.

(** ** A value-taking option as the last token *)

Lemma last_token_split {A : Type} (argv : list A) (i : nat) (tok : A) :
  nth_error argv i = Some tok -> length argv = S i ->
  argv = firstn i argv ++ [tok] /\ length (firstn i argv) = i.
Proof.
  intros Hnth Hlen.
  destruct (nth_error_split _ _ Hnth) as (l1 & l2 & -> & Hl1).
  rewrite length_app in Hlen. simpl in Hlen.
  destruct l2; [|simpl in Hlen; lia].
  subst i. rewrite firstn_kept. auto.
Qed.

(** The loop at the last token, matched without inline value: the handler
    gets the empty string, whether or not the descriptor takes a value. *)
Lemma parse_loop_last_token
      (ext : handler -> string -> option Z) (fuel : nat) (st : state)
      (argv : list string) (i : nat) (tok : string) (opt : option_descr) :
  nth_error argv i = Some tok ->
  length argv = S i ->
  lookup tok = Found opt None ->
  parse_loop ext (S (S fuel)) st argv i
  = Some (st1 <- call ext (func opt) st EmptyString ;;
          Returns (fold_inherit st1 [tok] (inherit opt), firstn i argv)).
Proof.
  intros Hnth Hlen Hlk.
  destruct (last_token_split _ Hnth Hlen) as [Hargv Hi].
  rewrite Hargv at 1. rewrite <- Hi at 2.
  rewrite parse_loop_scan by (simpl; lia).
  cbn [scan]. rewrite Hlk.
  destruct (call ext (func opt) st EmptyString) as [st1|c]; cbn; [|reflexivity].
  unfold put_back. cbn. now rewrite app_nil_r.
Qed.

(** C5, amended. When the loop of [parse_options] is at the last token of
    the vector and that token is matched, without inline value, against a
    descriptor that takes a value, the handler is called with the empty
    string.  If the handler returns, that call is the only one recorded, the
    token alone is removed and the pass returns; if the handler ends the
    process, so does the pass, with the handler's exit code. *)
Theorem last_value_option_gets_empty_string
        (ext : handler -> string -> option Z) (fuel : nat) (st : state)
        (argv : list string) (i : nat) (tok : string) (opt : option_descr) :
  nth_error argv i = Some tok ->
  length argv = S i ->
  lookup tok = Found opt None ->
  has_arg opt = true ->
  (forall st1,
      call ext (func opt) st EmptyString = Returns st1 ->
      parse_loop ext (S (S fuel)) st argv i
      = Some (Returns (fold_inherit st1 [tok] (inherit opt), firstn i argv))
      /\ calls (fold_inherit st1 [tok] (inherit opt))
         = calls st ++ [(func opt, EmptyString)])
  /\ (forall code,
         call ext (func opt) st EmptyString = ExitProcess code ->
         parse_loop ext (S (S fuel)) st argv i = Some (ExitProcess code)).
Proof.
  intros Hnth Hlen Hlk Harg.
  pose proof (parse_loop_last_token ext fuel st argv Hnth Hlen Hlk) as Hloop.
  split.
  - intros st1 Hcall. rewrite Hloop, Hcall. split; [reflexivity|].
    rewrite fold_inherit_calls. now apply call_returns in Hcall.
  - intros code Hcall. now rewrite Hloop, Hcall.
Qed.

Lemma last_value_option_gets_empty_string_witness :
  parse_loop no_exit 2 initial_state ["app.exe"; "--dll"] 1
  = Some (Returns (fold_inherit (log_call initial_state fn_MODULE_AddLoadOrderOption EmptyString)
                                ["--dll"] true,
                   ["app.exe"]))
  /\ calls (fold_inherit (log_call initial_state fn_MODULE_AddLoadOrderOption EmptyString)
                         ["--dll"] true)
     = [] ++ [(fn_MODULE_AddLoadOrderOption, EmptyString)].
Proof.
  apply (proj1 (@last_value_option_gets_empty_string no_exit 0 initial_state
                  ["app.exe"; "--dll"] 1 "--dll" opt_dll
                  eq_refl eq_refl eq_refl eq_refl)).
  reflexivity.
Defined.

(** C5 as stated fails for the message-filter option: matched as the last
    token, its handler gets the empty string and ends the process with
    code 1, so no token is consumed and the pass does not return. *)
Lemma last_value_option_counterexample :
  lookup "--debugmsg" = Found opt_debugmsg None
  /\ has_arg opt_debugmsg = true
  /\ parse_options no_exit initial_state ["--debugmsg"] = ExitProcess 1
  /\ ~ (exists st', parse_options no_exit initial_state ["--debugmsg"] = Returns (st', [])).
Proof.
  repeat split. intros [st' H]. discriminate H.
Qed.

(** C10. [do_debugmsg] on the empty string takes the [error:] exit, code 1;
    so the pass ends with code 1 when its loop is at a final [--debugmsg], or
    at [--debugmsg=] anywhere; in particular when only tokens that the loop
    steps over come before. *)
Theorem empty_debugmsg_is_fatal :
  (forall st, do_debugmsg st EmptyString = ExitProcess 1)
  /\ (forall ext fuel st argv i,
         nth_error argv i = Some "--debugmsg" ->
         length argv = S i ->
         parse_loop ext (S (S fuel)) st argv i = Some (ExitProcess 1))
  /\ (forall ext fuel st argv i,
         nth_error argv i = Some "--debugmsg=" ->
         parse_loop ext (S fuel) st argv i = Some (ExitProcess 1))
  /\ (forall ext st pre,
         Forall (fun t => lookup t = Continue) pre ->
         parse_options ext st (pre ++ ["--debugmsg"]) = ExitProcess 1)
  /\ (forall ext st pre post,
         Forall (fun t => lookup t = Continue) pre ->
         parse_options ext st (pre ++ "--debugmsg=" :: post) = ExitProcess 1).
Proof.
  assert (Hlk1 : lookup "--debugmsg" = Found opt_debugmsg None) by reflexivity.
  assert (Hlk2 : lookup "--debugmsg=" = Found opt_debugmsg (Some EmptyString))
    by reflexivity.
  refine (conj _ (conj _ (conj _ (conj _ _)))).
  - intros st. reflexivity.
  - intros ext fuel st argv i Hnth Hlen.
    rewrite (parse_loop_last_token ext fuel st argv Hnth Hlen Hlk1).
    reflexivity.
  - intros ext fuel st argv i Hnth.
    cbn [parse_loop]. rewrite Hnth, Hlk2. reflexivity.
  - intros ext st pre Hpre.
    rewrite parse_options_scan, scan_skips by assumption.
    cbn [scan]. rewrite Hlk1. reflexivity.
  - intros ext st pre post Hpre.
    rewrite parse_options_scan, scan_skips by assumption.
    cbn [scan]. rewrite Hlk2. reflexivity.
Qed.

Lemma empty_debugmsg_is_fatal_witness :
  parse_loop no_exit 2 initial_state ["app.exe"; "--debugmsg"] 1 = Some (ExitProcess 1)
  /\ parse_loop no_exit 1 initial_state ["--debugmsg="; "app.exe"] 0 = Some (ExitProcess 1)
  /\ parse_options no_exit initial_state (["app.exe"; "-unknown"] ++ ["--debugmsg"])
     = ExitProcess 1
  /\ parse_options no_exit initial_state (["app.exe"] ++ "--debugmsg=" :: ["x"])
     = ExitProcess 1.
Proof.
  destruct empty_debugmsg_is_fatal as (_ & H2 & H3 & H4 & H5).
  refine (conj _ (conj _ (conj _ _))).
  - apply H2; reflexivity.
  - apply H3; reflexivity.
  - apply H4. repeat constructor.
  - apply H5. repeat constructor.
Defined.

(** ** The message-filter grammar *)

(** C7. [+all,warn-heap] makes exactly two calls of [wine_dbg_add_option],
    in this order: every bit set for the empty name, then the bit of "warn"
    (class 2) cleared for "heap"; nothing else of the state changes.  The
    arguments [foo] and [+] end the process with code 1. *)
Theorem debugmsg_all_warn_heap (st : state) :
  do_debugmsg st "+all,warn-heap"
  = Returns (wine_dbg_add_option
               (wine_dbg_add_option st EmptyString all_bits 0)
               "heap" 0 (Z.shiftl 1 2))
  /\ nth_error debug_class_names 2 = Some "warn"
  /\ Forall (fun i => Z.testbit all_bits (Z.of_nat i) = true) (seq 0 DBCL_COUNT)
  /\ do_debugmsg st "foo" = ExitProcess 1
  /\ do_debugmsg st "+" = ExitProcess 1.
Proof.
  refine (conj _ (conj _ (conj _ (conj _ _)))); try reflexivity.
  repeat constructor.
Qed.

Lemma strchr_first_at (c : ascii) (d : string) :
  forall k, strchr d c = Some k <-> first_at c d k.
Proof.
  unfold first_at.
  induction d as [|a d IH]; intros k; simpl.
  - split; [discriminate|]. intros [H _]. destruct k; discriminate.
  - destruct (Ascii.eqb_spec a c) as [->|Hne].
    + split.
      * intros H; injection H as <-. split; [reflexivity|]. intros j Hj; lia.
      * intros [H Hmin]. destruct k; [reflexivity|].
        exfalso. apply (Hmin 0); [lia | reflexivity].
    + destruct (strchr d c) as [k'|] eqn:E.
      * split.
        -- intros H; injection H as <-.
           destruct (proj1 (IH k') eq_refl) as [Hg Hmin].
           split; [exact Hg|].
           intros [|j] Hj; simpl; [congruence | apply Hmin; lia].
        -- intros [Hg Hmin]. destruct k as [|k]; [simpl in Hg; congruence|].
           simpl in Hg. f_equal.
           assert (H : Some k' = Some k); [|congruence].
           apply IH. split; [exact Hg|].
           intros j Hj. apply (Hmin (S j)). lia.
      * split; [discriminate|].
        intros [Hg Hmin]. destruct k as [|k]; [simpl in Hg; congruence|].
        simpl in Hg.
        assert (H : None = Some k); [|discriminate].
        apply IH. split; [exact Hg|].
        intros j Hj. apply (Hmin (S j)). lia.
Qed.

Lemma strchr_absent (c : ascii) (d : string) :
  strchr d c = None <-> absent c d.
Proof.
  unfold absent.
  induction d as [|a d IH]; simpl.
  - split; [|reflexivity]. intros _ [|j]; discriminate.
  - destruct (Ascii.eqb_spec a c) as [->|Hne].
    + split; [discriminate|]. intros H. exfalso. now apply (H 0).
    + destruct (strchr d c) as [k'|] eqn:E.
      * split; [discriminate|]. intros H.
        assert (H' : Some k' = None); [|discriminate].
        apply IH. intros j. apply (H (S j)).
      * split; [|reflexivity]. intros _ [|j]; simpl; [congruence|].
        now apply IH.
Qed.

Lemma find_sign_sign_at (d : string) (k : nat) :
  find_sign d = Some k <-> sign_at d k.
Proof.
  unfold find_sign, sign_at.
  destruct (strchr d "+") as [k'|] eqn:E.
  - rewrite <- strchr_first_at, E. split; [auto|].
    intros [H|[H _]]; [exact H|].
    apply strchr_absent in H. congruence.
  - rewrite <- strchr_first_at, <- strchr_absent, <- strchr_first_at, E.
    split; [auto|]. intros [H|[_ H]]; [discriminate | exact H].
Qed.

Lemma find_sign_none (d : string) :
  find_sign d = None <-> absent "+" d /\ absent "-" d.
Proof.
  unfold find_sign. rewrite <- !strchr_absent.
  destruct (strchr d "+"); intuition discriminate.
Qed.

Lemma advance_empty (d : string) (n : nat) :
  advance d n = EmptyString <-> strlen d <= n.
Proof.
  revert d. induction n as [|n IH]; intros [|a d]; unfold strlen; simpl.
  - split; [lia | reflexivity].
  - split; [discriminate | lia].
  - split; [lia | reflexivity].
  - rewrite IH. unfold strlen. lia.
Qed.

Lemma strchr_bound (c : ascii) (d : string) (k : nat) :
  strchr d c = Some k -> k < strlen d.
Proof.
  revert k. induction d as [|a d IH]; intros k; simpl; [discriminate|].
  destruct (Ascii.eqb a c); [intros H; injection H as <-; lia|].
  destruct (strchr d c) as [k'|]; [|discriminate].
  intros H; injection H as <-. specialize (IH _ eq_refl). lia.
Qed.

Lemma find_sign_bound (d : string) (k : nat) :
  find_sign d = Some k -> k < strlen d.
Proof.
  unfold find_sign. destruct (strchr d "+") eqn:E.
  - intros H; injection H as <-. eapply strchr_bound; eauto.
  - apply strchr_bound.
Qed.

Lemma first_sign_spec_no_minus_before (d : string) :
  forall k,
    strchr d "+" = Some k ->
    (forall j, j < k -> String.get j d <> Some "-"%char) ->
    first_sign_spec d = Some k.
Proof.
  induction d as [|a d IH]; intros k; simpl; [discriminate|].
  destruct (Ascii.eqb_spec a "+") as [->|Hp]; simpl.
  - intros H _; exact H.
  - destruct (strchr d "+") as [k'|] eqn:E; [|discriminate].
    intros H Hmin; injection H as <-.
    destruct (Ascii.eqb_spec a "-") as [->|Hm].
    + exfalso. apply (Hmin 0); [lia | reflexivity].
    + rewrite (IH k' eq_refl); [reflexivity|].
      intros j Hj. apply (Hmin (S j)). lia.
Qed.

Lemma first_sign_spec_no_plus (d : string) :
  strchr d "+" = None -> first_sign_spec d = strchr d "-".
Proof.
  induction d as [|a d IH]; simpl; [reflexivity|].
  destruct (Ascii.eqb_spec a "+") as [->|Hp]; [discriminate|]. simpl.
  destruct (strchr d "+") eqn:E; [discriminate|]. intros _.
  destruct (Ascii.eqb a "-"); [reflexivity|].
  rewrite IH by reflexivity. destruct (strchr d "-"); reflexivity.
Qed.

(** C4, amended. The split point of a directive is its first '+' when it
    has one, and its first '-' otherwise; the directive is sent to the
    [error:] exit at this point exactly when it has neither character or
    nothing follows the split point.  When no '-' comes before the first
    '+', this is the first occurrence of either character. *)
Theorem split_directive_prefers_plus (d : string) :
  (forall k, split_directive d = Some k <-> sign_at d k /\ S k < strlen d)
  /\ (split_directive d = None <->
      (absent "+" d /\ absent "-" d) \/ (exists k, sign_at d k /\ S k = strlen d))
  /\ (forall st, split_directive d = None -> do_directive st d = ExitProcess 1)
  /\ ((forall k, strchr d "+" = Some k ->
                 forall j, j < k -> String.get j d <> Some "-"%char) ->
      find_sign d = first_sign_spec d).
Proof.
  assert (Hsome : forall k, split_directive d = Some k <-> sign_at d k /\ S k < strlen d).
  { intros k. unfold split_directive. rewrite <- find_sign_sign_at.
    destruct (find_sign d) as [k0|] eqn:E.
    - destruct (advance d (S k0)) as [|a r] eqn:Ea.
      + apply advance_empty in Ea. split; [discriminate|].
        intros [H Hlt]; injection H as <-. lia.
      + assert (Hlt : ~ strlen d <= S k0).
        { rewrite <- advance_empty, Ea. discriminate. }
        split.
        * intros H; injection H as <-. split; [reflexivity | lia].
        * intros [H _]; exact H.
    - split; [discriminate|]. intros [H _]; discriminate. }
  refine (conj Hsome (conj _ (conj _ _))).
  - unfold split_directive.
    destruct (find_sign d) as [k0|] eqn:E.
    + destruct (advance d (S k0)) as [|a r] eqn:Ea.
      * apply advance_empty in Ea. split; [|reflexivity]. intros _. right.
        exists k0. split; [now apply find_sign_sign_at|].
        apply find_sign_bound in E. lia.
      * assert (Hlt : ~ strlen d <= S k0).
        { rewrite <- advance_empty, Ea. discriminate. }
        split; [discriminate|].
        intros [H|[k [H Hk]]].
        -- apply find_sign_none in H. congruence.
        -- apply find_sign_sign_at in H. rewrite E in H. injection H as <-. lia.
    + split; [|reflexivity]. intros _. left. now apply find_sign_none.
  - intros st H. unfold do_directive. now rewrite H.
  - intros Hmin. unfold find_sign.
    destruct (strchr d "+") as [k|] eqn:E.
    + symmetry. apply first_sign_spec_no_minus_before; [exact E | now apply Hmin].
    + symmetry. now apply first_sign_spec_no_plus.
Qed.

Lemma split_directive_prefers_plus_witness :
  split_directive "warn-heap" = Some 4
  /\ split_directive "+" = None
  /\ find_sign "trace+x-y" = first_sign_spec "trace+x-y".
Proof.
  destruct (split_directive_prefers_plus "warn-heap") as (H1 & _).
  destruct (split_directive_prefers_plus "+") as (_ & H2 & _).
  destruct (split_directive_prefers_plus "trace+x-y") as (_ & _ & _ & H4).
  refine (conj _ (conj _ _)).
  - apply H1. split; [|simpl; lia].
    right. split.
    + intros j. do 10 (destruct j as [|j]; [discriminate|]). discriminate.
    + split; [reflexivity|].
      intros j Hj. do 4 (destruct j as [|j]; [discriminate|]). lia.
  - apply H2. right. exists 0. split; [|reflexivity].
    left. split; [reflexivity|]. intros j Hj; lia.
  - apply H4. intros k Hk j Hj. injection Hk as <-.
    do 5 (destruct j as [|j]; [discriminate|]). lia.
Defined.

(** C4 as stated fails: in [a-b+c] the first sign is the '-' at offset 1 but
    the code splits at the '+' at offset 3; and [-+] is well formed for the
    claim (sign at 0, then "+") while the code sends it to [error:]. *)
Lemma split_directive_counterexample :
  first_sign_spec "a-b+c" = Some 1 /\ find_sign "a-b+c" = Some 3
  /\ malformed_spec "-+" = false /\ split_directive "-+" = None
  /\ do_directive initial_state "-+" = ExitProcess 1.
Proof.
  refine (conj _ (conj _ (conj _ (conj _ _)))); reflexivity.
Qed.

(** ** Module lists *)

Lemma append_empty_r (s : string) : (s ++ EmptyString)%string = s.
Proof. induction s as [|c s IH]; simpl; [reflexivity | now rewrite IH]. Qed.

Lemma append_assoc (a b c : string) : ((a ++ b) ++ c)%string = (a ++ (b ++ c))%string.
Proof. induction a as [|x a IH]; simpl; [reflexivity | now rewrite IH]. Qed.

Lemma length_append (a b : string) : strlen (a ++ b)%string = strlen a + strlen b.
Proof. induction a as [|x a IH]; simpl; [reflexivity | unfold strlen in *; simpl; lia]. Qed.

Lemma strtok_all_token (delims tok rest : string) :
  tok <> EmptyString ->
  no_delim delims tok = true ->
  starts_token delims rest = false ->
  strtok_all delims (tok ++ rest)%string = tok :: strtok_all delims rest.
Proof.
  induction tok as [|c tok IH]; [congruence|].
  intros _ Hclean Hrest. simpl in Hclean.
  apply andb_prop in Hclean. destruct Hclean as [Hc Hclean].
  apply negb_true_iff in Hc.
  cbn [append strtok_all]. rewrite Hc.
  destruct tok as [|c' tok].
  - cbn [append]. now rewrite Hrest.
  - assert (Hst : starts_token delims (String c' tok ++ rest)%string = true).
    { simpl in Hclean. apply andb_prop in Hclean. simpl. tauto. }
    rewrite Hst, IH; [reflexivity | discriminate | exact Hclean | exact Hrest].
Qed.

Lemma strtok_all_single (delims tok : string) :
  tok <> EmptyString -> no_delim delims tok = true -> strtok_all delims tok = [tok].
Proof.
  intros Hne Hclean.
  rewrite <- (append_empty_r tok) at 1.
  now rewrite strtok_all_token.
Qed.

Lemma strchr_no_delim (s : string) (c : ascii) :
  strchr s c = None -> no_delim (String c EmptyString) s = true.
Proof.
  induction s as [|a s IH]; simpl; [reflexivity|].
  destruct (Ascii.eqb a c); [discriminate|].
  destruct (strchr s c); [discriminate|]. auto.
Qed.

Lemma colon_fields_split (s : string) :
  fst (colon_fields s) ++ [snd (colon_fields s)] = split_on ":" s.
Proof.
  induction s as [|c s IH]; simpl; [reflexivity|].
  destruct (colon_fields s) as [fs last]. simpl in IH.
  destruct (Ascii.eqb c ":"); simpl.
  - now rewrite IH.
  - rewrite <- IH. destruct fs; reflexivity.
Qed.

Lemma colon_fields_last_length (s : string) :
  strlen (snd (colon_fields s)) <= strlen s.
Proof.
  unfold strlen.
  induction s as [|c s IH]; simpl; [lia|].
  destruct (colon_fields s) as [fs last]. simpl in IH.
  destruct (Ascii.eqb c ":"); simpl; [lia|].
  destruct fs; simpl; lia.
Qed.

Lemma take_all (s : string) : take (strlen s) s = s.
Proof. induction s as [|c s IH]; simpl; [reflexivity | now rewrite IH]. Qed.

Lemma advance_0 (p : string) : advance p 0 = p.
Proof. reflexivity. Qed.

Lemma advance_length (p : string) (n : nat) : strlen (advance p n) <= strlen p.
Proof.
  unfold strlen. revert p.
  induction n as [|n IH]; intros [|c p]; simpl; try lia.
  specialize (IH p). lia.
Qed.

(** With [l] the whole length, the array holds the upper-cased pieces of
    the text after the '=', then NULL. *)
Lemma build_list_whole (p : string) :
  build_list p (strlen p)
  = map (fun f => Some (_strupr f)) (split_on ":" (advance p 7)) ++ [None].
Proof.
  unfold build_list.
  rewrite <- colon_fields_split.
  pose proof (colon_fields_last_length (advance p 7)) as Hlast.
  pose proof (advance_length p 7) as Hadv.
  destruct (colon_fields (advance p 7)) as [fs last].
  cbn [fst snd] in Hlast |- *.
  replace (strlen p - strlen last <=? strlen p)%nat with true
    by (symmetry; apply Nat.leb_le; lia).
  replace (strlen p - (strlen p - strlen last)) with (strlen last) by lia.
  rewrite take_all, map_app, <- app_assoc. reflexivity.
Qed.

(** A directive that starts with its sign and goes on with [relay=] or
    [snoop=], in any case: one list is stored, then the directive is cut
    after the keyword and forwarded. *)
Lemma do_directive_module (st : state) (d : string) :
  find_sign d = Some 0 ->
  strncaseeq (advance d 1) "relay=" || strncaseeq (advance d 1) "snoop=" = true ->
  do_directive st d
  = Returns (add_option
               (store_list st (select_output d)
                  (build_list d match strchr d "," with
                                | Some n => n
                                | None => strlen d
                                end))
               (take 6 d) all_bits 0).
Proof.
  intros Hsign Hkey.
  unfold do_directive, split_directive. rewrite Hsign.
  destruct (advance d 1) as [|c r] eqn:E; [discriminate Hkey|].
  cbv beta iota zeta. rewrite !advance_0, E, Hkey. reflexivity.
Qed.

(** C8. [+relay=USER32:KERNEL32] stores, as the relay include list, a new
    array holding "USER32", "KERNEL32" and the NULL.  For every text [t]
    without a comma, [+relay=t] stores the pieces of [t] split on ':', each
    upper-cased, followed by the NULL; the other three lists are kept. *)
Theorem relay_list_is_rebuilt :
  (forall st,
      exists st',
        do_debugmsg st "+relay=USER32:KERNEL32" = Returns st'
        /\ debug_relay_includelist st' = Some [Some "USER32"; Some "KERNEL32"; None])
  /\ (forall st t,
         strchr t "," = None ->
         do_debugmsg st ("+relay=" ++ t)
         = Returns (wine_dbg_add_option
                      (store_list st relay_include
                         (map (fun f => Some (_strupr f)) (split_on ":" t) ++ [None]))
                      "relay" all_bits 0)).
Proof.
  split.
  - intros st. eexists. split; reflexivity.
  - intros st t Ht.
    unfold do_debugmsg.
    rewrite strtok_all_single.
    + cbn [do_directives bind].
      rewrite do_directive_module by reflexivity.
      replace (strchr ("+relay=" ++ t) ",") with (@None nat)
        by (simpl; now rewrite Ht).
      rewrite build_list_whole. reflexivity.
    + discriminate.
    + apply strchr_no_delim in Ht. simpl. exact Ht.
Qed.

Lemma relay_list_is_rebuilt_witness :
  do_debugmsg initial_state ("+relay=" ++ "gdi32:user32")
  = Returns (wine_dbg_add_option
               (store_list initial_state relay_include
                  (map (fun f => Some (_strupr f)) (split_on ":" "gdi32:user32") ++ [None]))
               "relay" all_bits 0).
Proof.
  apply (proj2 relay_list_is_rebuilt initial_state "gdi32:user32").
  reflexivity.
Defined.

Lemma take_length (n : nat) (p : string) : strlen (take n p) = Nat.min n (strlen p).
Proof.
  unfold strlen. revert p.
  induction n as [|n IH]; intros [|c p]; simpl; auto.
Qed.

Lemma strmap_length (f : ascii -> ascii) (s : string) : strlen (strmap f s) = strlen s.
Proof. unfold strlen. induction s; simpl; auto. Qed.

Lemma streq_length (a b : string) : streq a b = true -> strlen a = strlen b.
Proof. unfold streq. intros H. apply String.eqb_eq in H. now subst. Qed.

Lemma strncaseeq_length (p key : string) :
  strncaseeq p key = true -> strlen key <= strlen p.
Proof.
  unfold strncaseeq. intros H. apply streq_length in H.
  rewrite strmap_length, take_length in H. lia.
Qed.

(** C3, amended. A directive without class name whose rest begins, in any
    case, with [relay=] or [snoop=] stores one module list and then makes
    exactly one call of [wine_dbg_add_option]: every class to set, none to
    clear, for the five keyword characters as they are written.  The list
    stored is, for a directive without comma, the upper-cased pieces of the
    text after the '=' and the NULL; it is the relay list of the sign when
    the rest starts with a lower-case r, and the snoop list of the sign when
    the keyword is [snoop]. *)
Theorem module_directive_forwards_keyword (st : state) (d : string) :
  find_sign d = Some 0 ->
  strncaseeq (advance d 1) "relay=" = true \/ strncaseeq (advance d 1) "snoop=" = true ->
  exists lst,
    do_directive st d
    = Returns (wine_dbg_add_option (store_list st (select_output d) lst)
                                   (take 5 (advance d 1)) all_bits 0)
    /\ (strchr d "," = None ->
        lst = map (fun f => Some (_strupr f)) (split_on ":" (advance d 7)) ++ [None])
    /\ (deref (advance d 1) = "r"%char -> select_output d = slot_of true (is_plus d))
    /\ (strncaseeq (advance d 1) "snoop=" = true ->
        select_output d = slot_of false (is_plus d)).
Proof.
  intros Hsign Hkey.
  assert (Hlen : 6 <= strlen (advance d 1)).
  { destruct Hkey as [H|H]; apply strncaseeq_length in H; exact H. }
  assert (Hor : strncaseeq (advance d 1) "relay=" || strncaseeq (advance d 1) "snoop="
                = true).
  { apply orb_true_iff. exact Hkey. }
  eexists. refine (conj _ (conj _ (conj _ _))).
  - rewrite (do_directive_module st d Hsign Hor).
    unfold add_option.
    replace (advance (take 6 d) 1) with (take 5 (advance d 1))
      by (destruct d; reflexivity).
    assert (Hall : streq (take 5 (advance d 1)) "all" = false).
    { destruct (streq (take 5 (advance d 1)) "all") eqn:E; [|reflexivity].
      apply streq_length in E. rewrite take_length in E.
      change (strlen "all") with 3 in E. lia. }
    rewrite Hall. reflexivity.
  - intros Hcomma. rewrite Hcomma. apply build_list_whole.
  - intros Hr. unfold select_output, slot_of, is_plus. rewrite Hr.
    destruct (Ascii.eqb (deref d) "+"); reflexivity.
  - intros Hsnoop. unfold select_output, slot_of, is_plus.
    assert (Hnr : Ascii.eqb (deref (advance d 1)) "r" = false).
    { destruct (advance d 1) as [|c r]; [reflexivity|].
      cbn [deref].
      destruct (Ascii.eqb_spec c "r") as [->|]; [|reflexivity].
      destruct r as [|c1 r]; discriminate Hsnoop. }
    rewrite Hnr. destruct (Ascii.eqb (deref d) "+"); reflexivity.
Qed.

Lemma module_directive_forwards_keyword_witness :
  exists lst,
    do_directive initial_state "-snoop=gdi32:user32"
    = Returns (wine_dbg_add_option
                 (store_list initial_state (select_output "-snoop=gdi32:user32") lst)
                 (take 5 (advance "-snoop=gdi32:user32" 1)) all_bits 0)
    /\ (strchr "-snoop=gdi32:user32" "," = None ->
        lst = map (fun f => Some (_strupr f))
                  (split_on ":" (advance "-snoop=gdi32:user32" 7)) ++ [None])
    /\ (deref (advance "-snoop=gdi32:user32" 1) = "r"%char ->
        select_output "-snoop=gdi32:user32" = slot_of true (is_plus "-snoop=gdi32:user32"))
    /\ (strncaseeq (advance "-snoop=gdi32:user32" 1) "snoop=" = true ->
        select_output "-snoop=gdi32:user32" = slot_of false (is_plus "-snoop=gdi32:user32")).
Proof.
  apply (@module_directive_forwards_keyword initial_state "-snoop=gdi32:user32").
  - reflexivity.
  - right. reflexivity.
Defined.

(** C3 as stated fails: [+relay=a] stores the relay include list and also
    calls [wine_dbg_add_option] for "relay" with every class to set. *)
Lemma module_directive_counterexample :
  exists st',
    do_directive initial_state "+relay=a" = Returns st'
    /\ debug_relay_includelist st' = Some [Some "A"; None]
    /\ dbg_options initial_state = []
    /\ dbg_options st' = [("relay", 255%Z, 0%Z)].
Proof.
  eexists. refine (conj _ (conj _ (conj _ _))); reflexivity.
Qed.

(** ** The inheritance string *)

Lemma short_loop_in (table : list option_descr) (c : ascii) (opt : option_descr) :
  short_loop table c = Some opt -> In opt table.
Proof.
  induction table as [|o table IH]; simpl; [discriminate|].
  destruct (Ascii.eqb (shortname o) c).
  - intros H; injection H as <-. now left.
  - intros H. right. auto.
Qed.

Lemma long_loop_in (table : list option_descr) (p : string) (equal : option nat)
      (opt : option_descr) (ea : option string) :
  long_loop table p equal = Some (opt, ea) -> In opt table.
Proof.
  induction table as [|o table IH]; simpl; [discriminate|].
  destruct (streq p (longname o)).
  - intros H; injection H as <- _. now left.
  - destruct equal as [e|].
    + destruct (has_arg o && _ && _).
      * intros H; injection H as <- _. now left.
      * intros H. right. auto.
    + intros H. right. auto.
Qed.

Lemma lookup_in_table (tok : string) (opt : option_descr) (ea : option string) :
  lookup tok = Found opt ea -> In opt option_table.
Proof.
  unfold lookup.
  destruct tok as [|c tok]; [discriminate|].
  destruct (Ascii.eqb_spec c "-") as [->|Hc].
  - destruct tok as [|c1 tok].
    + destruct (long_loop option_table EmptyString (strchr EmptyString "="))
        as [[o e]|] eqn:E; [|discriminate].
      intros H; injection H as <- _. eapply long_loop_in; eauto.
    + destruct tok as [|c2 tok].
      * destruct (Ascii.eqb c1 "-"); [discriminate|].
        destruct (short_loop option_table c1) as [o|] eqn:E; [|discriminate].
        intros H; injection H as <- _. eapply short_loop_in; eauto.
      * set (p := String c1 (String c2 tok)).
        destruct (let '(p0, equal) :=
                    match p with
                    | String "-" p' => (p', option_map Nat.pred (strchr p "="))
                    | _ => (p, strchr p "=")
                    end in
                  long_loop option_table p0 equal) as [[o e]|] eqn:E.
        -- intros H.
           assert (Ho : o = opt).
           { revert H. unfold p in E |- *.
             destruct c1 as [[] [] [] [] [] [] [] []]; cbv zeta in E |- *;
               rewrite E; intros H; injection H as <- _; reflexivity. }
           subst o. unfold p in E.
           destruct c1 as [[] [] [] [] [] [] [] []];
             eapply long_loop_in; exact E.
        -- intros H. exfalso. revert H. unfold p in E |- *.
           destruct c1 as [[] [] [] [] [] [] [] []]; cbv zeta in E |- *;
             rewrite E; discriminate.
  - intros H. exfalso. revert H.
    destruct c as [[] [] [] [] [] [] [] []]; try discriminate.
    now contradiction Hc.
Qed.

Lemma table_inheritable (opt : option_descr) :
  In opt option_table -> inheritable (func opt) = inherit opt.
Proof.
  intros H. repeat (destruct H as [<-|H]; [reflexivity|]). destruct H.
Qed.

Lemma consumed_inheritable (g : list string) (opt : option_descr) (arg : string) :
  consumed g opt arg -> inheritable (func opt) = inherit opt.
Proof.
  intros H. apply table_inheritable.
  destruct H; eapply lookup_in_table; eauto.
Qed.

Lemma strcat_tokens_buf (toks : list string) :
  forall buf, strcat_tokens buf toks = (buf ++ strcat_tokens EmptyString toks)%string.
Proof.
  induction toks as [|t toks IH]; intros buf.
  - simpl. now rewrite append_empty_r.
  - destruct toks as [|t2 toks]; [reflexivity|].
    change (strcat_tokens buf (t :: t2 :: toks))
      with (strcat_tokens (buf ++ t ++ " ")%string (t2 :: toks)).
    change (strcat_tokens EmptyString (t :: t2 :: toks))
      with (strcat_tokens (t ++ " ")%string (t2 :: toks)).
    rewrite (IH (buf ++ t ++ " ")%string), (IH (t ++ " ")%string).
    now rewrite !append_assoc.
Qed.

Lemma strcat_tokens_app (g rest : list string) :
  g <> [] -> rest <> [] ->
  forall buf,
    strcat_tokens (strcat_tokens buf g ++ " ")%string rest = strcat_tokens buf (g ++ rest).
Proof.
  intros Hg Hrest.
  induction g as [|t g IH]; [congruence|]. intros buf.
  destruct g as [|t2 g].
  - destruct rest as [|r rest]; [congruence|].
    cbn [app strcat_tokens]. now rewrite !append_assoc.
  - change (strcat_tokens buf (t :: t2 :: g))
      with (strcat_tokens (buf ++ t ++ " ")%string (t2 :: g)).
    change (strcat_tokens buf ((t :: t2 :: g) ++ rest))
      with (strcat_tokens (buf ++ t ++ " ")%string ((t2 :: g) ++ rest)).
    apply IH. discriminate.
Qed.

Lemma append_buf_fold (st : state) (g rest : list string) :
  g <> [] ->
  append_buf (inherit_str (fold_inherit st g true)) rest
  = append_buf (inherit_str st) (g ++ rest).
Proof.
  intros Hg. unfold fold_inherit. cbn [inherit_str set_inherit_str].
  destruct rest as [|r rest].
  - rewrite app_nil_r. destruct g; [congruence | reflexivity].
  - unfold append_buf at 1.
    rewrite strcat_tokens_app by (assumption || discriminate).
    destruct g; [congruence | reflexivity].
Qed.

Lemma inherited_tokens_cons (g : list string) (opt : option_descr) (arg : string)
      (ms : list match_record) :
  inherited_tokens ((g, opt, arg) :: ms)
  = if inherit opt then g ++ inherited_tokens ms else inherited_tokens ms.
Proof.
  unfold inherited_tokens. cbn [filter descr_of fst snd].
  destruct (inherit opt); reflexivity.
Qed.

(** One match in front of the matches [ms] of what follows. *)
Lemma match_step (ext : handler -> string -> option Z)
      (st st1 st' : state) (opt : option_descr) (arg : string)
      (g : list string) (ms : list match_record) :
  call ext (func opt) st arg = Returns st1 ->
  g <> [] ->
  calls st' = calls (fold_inherit st1 g (inherit opt)) ++ map call_of ms ->
  inherit_str st'
  = append_buf (inherit_str (fold_inherit st1 g (inherit opt))) (inherited_tokens ms) ->
  calls st' = calls st ++ map call_of ((g, opt, arg) :: ms)
  /\ inherit_str st' = append_buf (inherit_str st) (inherited_tokens ((g, opt, arg) :: ms)).
Proof.
  intros Hcall Hg Hc Hi.
  apply call_returns in Hcall. destruct Hcall as [Hstr Hcalls].
  split.
  - rewrite Hc, fold_inherit_calls, Hcalls, <- app_assoc. reflexivity.
  - rewrite Hi, inherited_tokens_cons.
    destruct (inherit opt).
    + rewrite append_buf_fold by exact Hg. now rewrite Hstr.
    + cbn [fold_inherit]. now rewrite Hstr.
Qed.

(** A pass that returns has made the calls of [matched], has left
    [unmatched], and has folded the inheritable matches. *)
Lemma scan_matches (ext : handler -> string -> option Z) (n : nat) :
  forall rest st st' out,
    length rest <= n ->
    scan ext st rest = Returns (st', out) ->
    out = unmatched rest
    /\ calls st' = calls st ++ map call_of (matched rest)
    /\ inherit_str st' = append_buf (inherit_str st) (inherited_tokens (matched rest)).
Proof.
  unfold matched, unmatched.
  induction n as [|n IH]; intros rest st st' out Hn.
  - destruct rest; [|simpl in Hn; lia].
    simpl. intros H; injection H as <- <-. rewrite app_nil_r. auto.
  - destruct rest as [|tok rest].
    { simpl. intros H; injection H as <- <-. rewrite app_nil_r. auto. }
    simpl in Hn. cbn [scan matches].
    destruct (lookup tok) as [| |opt ea] eqn:Hlk.
    + destruct (scan ext st rest) as [[st2 out2]|c] eqn:E; cbn; [|discriminate].
      intros H; injection H as <- <-.
      apply IH in E; [|lia]. destruct E as (Ho & Hc & Hi).
      destruct (matches rest) as [ms o]. cbn [fst snd] in *.
      subst. auto.
    + intros H; injection H as <- <-. cbn. rewrite app_nil_r. auto.
    + assert (Hstep : forall arg g rest',
                 length rest' <= n ->
                 g <> [] ->
                 (st1 <- call ext (func opt) st arg ;;
                  scan ext (fold_inherit st1 g (inherit opt)) rest')
                 = Returns (st', out) ->
                 out = snd (let (ms, o) := matches rest' in ((g, opt, arg) :: ms, o))
                 /\ calls st'
                    = calls st
                      ++ map call_of
                           (fst (let (ms, o) := matches rest' in ((g, opt, arg) :: ms, o)))
                 /\ inherit_str st'
                    = append_buf (inherit_str st)
                        (inherited_tokens
                           (fst (let (ms, o) := matches rest' in
                                 ((g, opt, arg) :: ms, o))))).
      { intros arg g rest' Hlen Hg.
        destruct (call ext (func opt) st arg) as [st1|c] eqn:Ec; cbn [bind];
          [|discriminate].
        intros H. apply IH in H; [|exact Hlen]. destruct H as (Ho & Hc & Hi).
        destruct (matches rest') as [ms o]. cbn [fst snd] in *.
        split; [exact Ho|]. eapply match_step; eauto. }
      destruct ea as [v|]; [apply Hstep; [lia | discriminate]|].
      destruct rest as [|v rest']; [apply Hstep; [simpl; lia | discriminate]|].
      destruct (has_arg opt); apply Hstep; try discriminate; simpl in *; lia.
Qed.

Lemma parse_options_matches (ext : handler -> string -> option Z)
      (st st' : state) (argv out : list string) :
  parse_options ext st argv = Returns (st', out) ->
  out = unmatched argv
  /\ calls st' = calls st ++ map call_of (matched argv)
  /\ inherit_str st' = append_buf (inherit_str st) (inherited_tokens (matched argv)).
Proof.
  rewrite parse_options_scan. now apply scan_matches with (n := length argv).
Qed.

Lemma strcat_tokens_length (toks : list string) :
  forall buf, strlen buf <= strlen (strcat_tokens buf toks).
Proof.
  induction toks as [|t toks IH]; intros buf; [simpl; lia|].
  destruct toks as [|t2 toks].
  - simpl. rewrite length_append. lia.
  - change (strcat_tokens buf (t :: t2 :: toks))
      with (strcat_tokens (buf ++ t ++ " ")%string (t2 :: toks)).
    specialize (IH (buf ++ t ++ " ")%string).
    rewrite !length_append in IH. lia.
Qed.

Lemma fold_inherit_grows (st : state) (g : list string) :
  buf_size (inherit_str st) < buf_size (inherit_str (fold_inherit st g true)).
Proof.
  unfold fold_inherit. cbn [inherit_str set_inherit_str buf_size].
  destruct (inherit_str st) as [s|]; cbn [buf_size]; [|lia].
  pose proof (strcat_tokens_length g (s ++ " ")%string) as H.
  rewrite length_append in H. change (strlen " ") with 1 in H. lia.
Qed.

Lemma all_or_some {A : Type} (f : A -> bool) (l : list A) :
  Forall (fun x => f x = false) l \/ Exists (fun x => f x = true) l.
Proof.
  induction l as [|x l [IH|IH]].
  - left. constructor.
  - destruct (f x) eqn:E; [right; now left | left; now constructor].
  - right. now right.
Qed.

Lemma Scans_inherit (ext : handler -> string -> option Z)
      (st st' : state) (rest out : list string) :
  Scans ext st rest st' out ->
  exists cs,
    calls st' = calls st ++ cs
    /\ buf_size (inherit_str st) <= buf_size (inherit_str st')
    /\ (Forall (fun c => inheritable (fst c) = false) cs ->
        inherit_str st' = inherit_str st)
    /\ (Exists (fun c => inheritable (fst c) = true) cs ->
        buf_size (inherit_str st) < buf_size (inherit_str st')).
Proof.
  induction 1 as [st | st tok rest st' out Hlk _ IH | st tok rest Hlk
                 | st g opt arg rest st1 st' out Hg Hcall _ IH].
  - exists []. rewrite app_nil_r. repeat split; auto.
    intros H; inversion H.
  - exact IH.
  - exists []. rewrite app_nil_r. repeat split; auto.
    intros H; inversion H.
  - destruct IH as (cs & Hc & Hle & Hsame & Hgrow).
    apply call_returns in Hcall. destruct Hcall as [Hbuf Hcall].
    rewrite fold_inherit_calls, Hcall, <- app_assoc in Hc.
    pose proof (consumed_inheritable Hg) as Hinh.
    assert (Hstep : buf_size (inherit_str st)
                    <= buf_size (inherit_str (fold_inherit st1 g (inherit opt)))).
    { destruct (inherit opt).
      - pose proof (fold_inherit_grows st1 g). rewrite Hbuf in *. lia.
      - cbn. rewrite Hbuf. lia. }
    exists ((func opt, arg) :: cs). refine (conj Hc (conj _ (conj _ _))).
    + lia.
    + intros Hall. inversion Hall as [|? ? Hhd Htl]; subst.
      cbn [fst] in Hhd. rewrite Hinh in Hhd. rewrite Hhd in Hsame.
      cbn in Hsame. rewrite Hsame by assumption. exact Hbuf.
    + intros Hex. inversion Hex as [? ? Hhd|? ? Htl]; subst.
      * cbn [fst] in Hhd. rewrite Hinh in Hhd. rewrite Hhd in Hle.
        pose proof (fold_inherit_grows st1 g). rewrite Hbuf in *. lia.
      * specialize (Hgrow Htl). lia.
Qed.

(** C6, amended. The replay is a pass of the same scanner over the tokens
    of the source, folding included.  A replay that returns has made the
    handler calls of the options matched in these tokens, and the
    inheritance string after it is the string before it followed by the
    tokens of every inheritable option matched, in order, each after one
    space.  So the string is the same as before exactly when no inheritable
    option was matched, and is longer otherwise. *)
Theorem replay_folds_inheritable_options
        (ext : handler -> string -> option Z) (st st' : state) (source : string) :
  inherit_options ext st source = Returns st' ->
  parse_options ext st (firstn 255 (strtok_all blanks source)) = Returns (st', [])
  /\ calls st'
     = calls st ++ map call_of (matched (firstn 255 (strtok_all blanks source)))
  /\ inherit_str st'
     = append_buf (inherit_str st)
                  (inherited_tokens (matched (firstn 255 (strtok_all blanks source))))
  /\ (inherit_str st' = inherit_str st <->
      Forall (fun c => inheritable (fst c) = false)
             (map call_of (matched (firstn 255 (strtok_all blanks source)))))
  /\ (Exists (fun c => inheritable (fst c) = true)
             (map call_of (matched (firstn 255 (strtok_all blanks source)))) ->
      buf_size (inherit_str st) < buf_size (inherit_str st')).
Proof.
  unfold inherit_options.
  destruct (parse_options ext st (firstn 255 (strtok_all blanks source)))
    as [[st2 out]|c] eqn:E; cbn [bind snd fst]; [|discriminate].
  destruct out; [|discriminate].
  intros H; injection H as <-.
  destruct (parse_options_matches _ _ _ E) as (_ & Hcalls & Hstr).
  refine (conj eq_refl (conj Hcalls (conj Hstr _))).
  apply parse_options_Scans, Scans_inherit in E.
  destruct E as (cs & Hc & Hle & Hsame & Hgrow).
  assert (Hcs : cs = map call_of (matched (firstn 255 (strtok_all blanks source)))).
  { rewrite Hcalls in Hc. now apply app_inv_head in Hc. }
  rewrite <- Hcs. split; [|exact Hgrow].
  split; [|exact Hsame].
  intros Heq. destruct (all_or_some (fun c => inheritable (fst c)) cs) as [H|H];
    [exact H|].
  specialize (Hgrow H). rewrite Heq in Hgrow. lia.
Qed.

Lemma replay_folds_inheritable_options_witness :
  parse_options no_exit initial_state
                (firstn 255 (strtok_all blanks "--managed --winver win95"))
  = Returns (mkState (Some "--winver win95") true
                     [(fn_do_managed, EmptyString); (fn_VERSION_ParseWinVersion, "win95")]
                     [] None None None None, [])
  /\ [(fn_do_managed, EmptyString); (fn_VERSION_ParseWinVersion, "win95")]
     = [] ++ map call_of (matched (firstn 255 (strtok_all blanks "--managed --winver win95")))
  /\ Some "--winver win95"
     = append_buf None
         (inherited_tokens
            (matched (firstn 255 (strtok_all blanks "--managed --winver win95"))))
  /\ (Some "--winver win95" = None <->
      Forall (fun c => inheritable (fst c) = false)
             (map call_of
                  (matched (firstn 255 (strtok_all blanks "--managed --winver win95")))))
  /\ (Exists (fun c => inheritable (fst c) = true)
             (map call_of
                  (matched (firstn 255 (strtok_all blanks "--managed --winver win95")))) ->
      0 < 15).
Proof.
  apply (@replay_folds_inheritable_options no_exit initial_state
           (mkState (Some "--winver win95") true
                    [(fn_do_managed, EmptyString); (fn_VERSION_ParseWinVersion, "win95")]
                    [] None None None None)
           "--managed --winver win95").
  reflexivity.
Defined.

(** C6 as stated fails: the replay of [--dll foo] returns, and the
    inheritance string, NULL before, is "--dll foo" after. *)
Lemma replay_counterexample :
  exists st',
    inherit_options no_exit initial_state "--dll foo" = Returns st'
    /\ inherit_str initial_state = None
    /\ inherit_str st' = Some "--dll foo".
Proof.
  eexists. refine (conj _ (conj _ _)); reflexivity.
Qed.

(** ** Round trip of the inheritance string *)

(** A vector of inheritable options with their values is consumed whole,
    and all of it is folded into the inheritance string. *)
Lemma scan_only_inheritable (ext : handler -> string -> option Z) (argv : list string) :
  only_inheritable argv ->
  forall st st' out,
    scan ext st argv = Returns (st', out) ->
    out = [] /\ inherit_str st' = append_buf (inherit_str st) argv.
Proof.
  induction 1 as [|tok opt v rest Hlk Hinh _ IH|tok opt v rest Hlk Harg Hinh _ IH];
    intros st st' out.
  - simpl. intros H; injection H as <- <-. auto.
  - cbn [scan]. rewrite Hlk, Hinh.
    destruct (call ext (func opt) st v) as [st1|c] eqn:Ec; cbn [bind]; [|discriminate].
    intros H. apply IH in H. destruct H as [-> H]. split; [reflexivity|].
    rewrite H, (append_buf_fold st1 (g := [tok])) by discriminate.
    apply call_returns in Ec. destruct Ec as [-> _]. reflexivity.
  - cbn [scan]. rewrite Hlk, Harg, Hinh.
    destruct (call ext (func opt) st v) as [st1|c] eqn:Ec; cbn [bind]; [|discriminate].
    intros H. apply IH in H. destruct H as [-> H]. split; [reflexivity|].
    rewrite H, (append_buf_fold st1 (g := [tok; v])) by discriminate.
    apply call_returns in Ec. destruct Ec as [-> _]. reflexivity.
Qed.

(** [strtok] on blanks undoes the join with single spaces. *)
Lemma strtok_all_join (argv : list string) :
  Forall plain_token argv ->
  strtok_all blanks (strcat_tokens EmptyString argv) = argv.
Proof.
  induction argv as [|t argv IH]; intros Hall; [reflexivity|].
  inversion Hall as [|? ? [Hne Hclean] Hall']; subst.
  destruct argv as [|t2 argv].
  - cbn [strcat_tokens append]. now apply strtok_all_single.
  - change (strcat_tokens EmptyString (t :: t2 :: argv))
      with (strcat_tokens (t ++ " ")%string (t2 :: argv)).
    rewrite strcat_tokens_buf, append_assoc.
    rewrite strtok_all_token by (assumption || reflexivity).
    cbn [append]. f_equal. apply IH. exact Hall'.
Qed.

Lemma take_fits (s : string) : forall n, strlen s <= n -> take n s = s.
Proof.
  unfold strlen.
  induction s as [|c s IH]; intros [|n] H; simpl in *; try reflexivity; try lia.
  f_equal. apply IH. lia.
Qed.

(** [strtok] on blanks drops the space left by an empty last token. *)
Lemma strtok_all_join_final_empty (body : list string) :
  Forall plain_token body ->
  body <> [] ->
  strtok_all blanks (strcat_tokens EmptyString (body ++ [EmptyString])) = body.
Proof.
  induction body as [|t body IH]; [congruence|]. intros Hall _.
  inversion Hall as [|? ? [Hne Hclean] Hall']; subst.
  destruct body as [|t2 body].
  - cbn [app strcat_tokens append]. rewrite append_empty_r.
    rewrite strtok_all_token by (assumption || reflexivity).
    reflexivity.
  - change (strcat_tokens EmptyString ((t :: t2 :: body) ++ [EmptyString]))
      with (strcat_tokens (t ++ " ")%string ((t2 :: body) ++ [EmptyString])).
    rewrite strcat_tokens_buf, append_assoc.
    rewrite strtok_all_token by (assumption || reflexivity).
    cbn [append]. f_equal. apply IH; [exact Hall' | discriminate].
Qed.

(** A vector of inheritable options that ends in an empty token ends in a
    trigger and its empty value. *)
Lemma only_inheritable_final_value (argv : list string) :
  only_inheritable argv ->
  forall body,
    argv = body ++ [EmptyString] ->
    exists pre trig opt,
      body = pre ++ [trig]
      /\ only_inheritable pre
      /\ lookup trig = Found opt None
      /\ has_arg opt = true
      /\ inherit opt = true.
Proof.
  induction 1 as [|tok opt v rest Hlk Hinh Hrest IH|tok opt v rest Hlk Harg Hinh Hrest IH];
    intros body Heq.
  - destruct body; discriminate Heq.
  - destruct body as [|b body].
    + injection Heq as -> _. discriminate Hlk.
    + injection Heq as <- Hr.
      destruct (IH _ Hr) as (pre & trig & o & -> & Hpre & Ht & Ha & Hi).
      exists (tok :: pre), trig, o. repeat split; auto.
      eapply only_inheritable_inline; eauto.
  - destruct body as [|b [|b2 body]].
    + discriminate Heq.
    + injection Heq as <- -> ->.
      exists [], tok, opt. repeat split; auto.
    + injection Heq as <- <- Hr.
      destruct (IH _ Hr) as (pre & trig & o & -> & Hpre & Ht & Ha & Hi).
      exists (tok :: v :: pre), trig, o. repeat split; auto.
      eapply only_inheritable_next; eauto.
Qed.

(** The pass over inheritable options with their values, then over what
    follows them. *)
Lemma scan_app_only_inheritable (ext : handler -> string -> option Z) (pre : list string) :
  only_inheritable pre ->
  forall st rest,
    scan ext st (pre ++ rest) = (r <- scan ext st pre ;; scan ext (fst r) rest).
Proof.
  induction 1 as [|tok opt v pre Hlk Hinh _ IH|tok opt v pre Hlk Harg Hinh _ IH];
    intros st rest.
  - reflexivity.
  - cbn [app scan]. rewrite Hlk.
    destruct (call ext (func opt) st v) as [st1|c]; cbn [bind]; [|reflexivity].
    apply IH.
  - cbn [app scan]. rewrite Hlk, Harg.
    destruct (call ext (func opt) st v) as [st1|c]; cbn [bind]; [|reflexivity].
    apply IH.
Qed.

Lemma same_effects_refl (st : state) : same_effects st st.
Proof. repeat split. Qed.

Lemma same_effects_fold (st : state) (g g' : list string) (inh inh' : bool) :
  same_effects (fold_inherit st g inh) (fold_inherit st g' inh').
Proof. destruct inh, inh'; repeat split. Qed.

(** The round trip for a vector without empty token. *)
Lemma round_trip_plain (ext : handler -> string -> option Z)
      (argv : list string) (st1 : state) :
  Forall plain_token argv ->
  length argv <= 255 ->
  strlen (strcat_tokens EmptyString argv) < buffer_size ->
  parse_options ext initial_state argv = Returns (st1, []) ->
  inherit_str st1 = append_buf None argv ->
  inherit_from_env ext initial_state (inherit_str st1) = Returns st1
  /\ forall buf,
      inherit_str st1 = Some buf ->
      firstn 255 (strtok_all blanks buf) = argv
      /\ parse_options ext initial_state (firstn 255 (strtok_all blanks buf))
         = Returns (st1, []).
Proof.
  intros Hplain Hlen Hfit Hpass Hbuf.
  destruct argv as [|t argv].
  - cbn in Hpass. injection Hpass as <-. split; [reflexivity | discriminate].
  - change (append_buf None (t :: argv))
      with (Some (strcat_tokens EmptyString (t :: argv))) in Hbuf.
    assert (Htok : firstn 255 (strtok_all blanks (strcat_tokens EmptyString (t :: argv)))
                   = t :: argv).
    { rewrite strtok_all_join by assumption. apply firstn_all2. exact Hlen. }
    rewrite Hbuf. split.
    + unfold inherit_from_env, GetEnvironmentVariableA.
      rewrite take_fits by (unfold buffer_size in *; lia).
      destruct (strcat_tokens EmptyString (t :: argv)) as [|c b] eqn:Eb.
      { cbn in Htok. discriminate Htok. }
      unfold inherit_options. rewrite Htok, Hpass. reflexivity.
    + intros buf Hb.
      assert (Hb' : buf = strcat_tokens EmptyString (t :: argv)) by congruence.
      rewrite Hb', Htok. auto.
Qed.

(** C1, amended. Take a vector of inheritable options, each with its value,
    whose joined string fits, with its NUL, the buffer WINEOPTIONS is read
    into, and which, apart from a last token that is empty, has at most 255
    tokens, none of them empty or holding a space or a tab; and let the
    pass over it from the initial state return.  Then the pass leaves no
    token; the inheritance string it hands over is the vector joined with
    single spaces; the tokens the replay cuts out of that string are the
    vector without a last empty token; the replay from the initial state
    returns, with nothing left in the replayed vector, in a state that
    differs from the one of the first pass in the inheritance string at
    most: the same handler calls with the same values in the same order.
    Without an empty token the two states are the same. *)
Theorem inherit_round_trip
        (ext : handler -> string -> option Z) (argv : list string)
        (st1 : state) (out : list string) :
  only_inheritable argv ->
  Forall plain_token (drop_final_empty argv) ->
  length (drop_final_empty argv) <= 255 ->
  strlen (strcat_tokens EmptyString argv) < buffer_size ->
  parse_options ext initial_state argv = Returns (st1, out) ->
  out = []
  /\ inherit_str st1 = append_buf None argv
  /\ exists st2,
      inherit_from_env ext initial_state (inherit_str st1) = Returns st2
      /\ same_effects st1 st2
      /\ (forall buf,
             inherit_str st1 = Some buf ->
             firstn 255 (strtok_all blanks buf) = drop_final_empty argv
             /\ parse_options ext initial_state (firstn 255 (strtok_all blanks buf))
                = Returns (st2, []))
      /\ (Forall (fun t => t <> EmptyString) argv -> st2 = st1).
Proof.
  intros Hopts Hplain Hlen Hfit Hpass.
  pose proof Hpass as Hscan. rewrite parse_options_scan in Hscan.
  destruct (scan_only_inheritable ext Hopts _ Hscan) as [-> Hbuf].
  cbn [inherit_str initial_state] in Hbuf.
  refine (conj eq_refl (conj Hbuf _)).
  assert (Hplain_case :
            drop_final_empty argv = argv ->
            exists st2,
              inherit_from_env ext initial_state (inherit_str st1) = Returns st2
              /\ same_effects st1 st2
              /\ (forall buf,
                     inherit_str st1 = Some buf ->
                     firstn 255 (strtok_all blanks buf) = drop_final_empty argv
                     /\ parse_options ext initial_state
                                      (firstn 255 (strtok_all blanks buf))
                        = Returns (st2, []))
              /\ (Forall (fun t => t <> EmptyString) argv -> st2 = st1)).
  { intros Hsame. rewrite Hsame in *.
    destruct (round_trip_plain ext Hplain Hlen Hfit Hpass Hbuf) as [Henv Hrep].
    exists st1. refine (conj Henv (conj (same_effects_refl st1) (conj Hrep _))).
    reflexivity. }
  destruct argv as [|a0 argv0]; [apply Hplain_case; reflexivity|].
  destruct (@exists_last _ (a0 :: argv0)) as (body & l & E); [discriminate|].
  rewrite E in *. clear E a0 argv0.
  unfold drop_final_empty in Hplain, Hlen, Hplain_case |- *.
  rewrite last_last, removelast_last in *.
  destruct l as [|c l]; [|apply Hplain_case; reflexivity].
  (* the last token is an empty value *)
  cbn [streq String.eqb] in Hplain, Hlen |- *. clear Hplain_case.
  destruct (only_inheritable_final_value Hopts body eq_refl)
    as (pre & trig & opt & -> & Hpre & Hlk & Harg & Hinh).
  rewrite <- app_assoc in Hscan. cbn [app] in Hscan.
  rewrite (scan_app_only_inheritable ext Hpre) in Hscan.
  destruct (scan ext initial_state pre) as [[sa oa]|c0] eqn:Epre; cbn [bind fst] in Hscan;
    [|discriminate Hscan].
  cbn [scan] in Hscan. rewrite Hlk, Harg, Hinh in Hscan.
  destruct (call ext (func opt) sa EmptyString) as [sb|c0] eqn:Ecall; cbn [bind] in Hscan;
    [|discriminate Hscan].
  cbn [scan] in Hscan.
  assert (Est : st1 = fold_inherit sb [trig; EmptyString] true) by congruence.
  subst st1. clear Hscan.
  assert (Hreplay : parse_options ext initial_state (pre ++ [trig])
                    = Returns (fold_inherit sb [trig] true, [])).
  { rewrite parse_options_scan, (scan_app_only_inheritable ext Hpre), Epre.
    cbn [bind fst scan]. rewrite Hlk, Hinh, Ecall. reflexivity. }
  assert (Htok : firstn 255
                   (strtok_all blanks
                      (strcat_tokens EmptyString ((pre ++ [trig]) ++ [EmptyString])))
                 = pre ++ [trig]).
  { rewrite strtok_all_join_final_empty
      by (assumption || (destruct pre; discriminate)).
    apply firstn_all2. exact Hlen. }
  assert (Hstr : inherit_str (fold_inherit sb [trig; EmptyString] true)
                 = Some (strcat_tokens EmptyString ((pre ++ [trig]) ++ [EmptyString]))).
  { rewrite Hbuf. destruct ((pre ++ [trig]) ++ [EmptyString]) eqn:El; [|reflexivity].
    destruct pre; discriminate El. }
  exists (fold_inherit sb [trig] true).
  refine (conj _ (conj _ (conj _ _))).
  - rewrite Hstr. unfold inherit_from_env, GetEnvironmentVariableA.
    rewrite take_fits by (unfold buffer_size in *; lia).
    destruct (strcat_tokens EmptyString ((pre ++ [trig]) ++ [EmptyString]))
      as [|ch b] eqn:Eb.
    { cbn in Htok. destruct pre; discriminate Htok. }
    unfold inherit_options. rewrite Htok, Hreplay. reflexivity.
  - apply same_effects_fold.
  - intros buf Hb. rewrite Hstr in Hb.
    assert (Hb' : buf = strcat_tokens EmptyString ((pre ++ [trig]) ++ [EmptyString]))
      by congruence.
    rewrite Hb', Htok. auto.
  - intros Hall. apply Forall_app in Hall. destruct Hall as [_ Hall].
    inversion Hall as [|? ? Hx _]; subst. now contradiction Hx.
Qed.

Lemma inherit_round_trip_witness :
  @nil string = []
  /\ Some "--dll=foo --winver " = append_buf None ["--dll=foo"; "--winver"; EmptyString]
  /\ exists st2,
      inherit_from_env no_exit initial_state (Some "--dll=foo --winver ") = Returns st2
      /\ same_effects
           (mkState (Some "--dll=foo --winver ") false
                    [(fn_MODULE_AddLoadOrderOption, "foo");
                     (fn_VERSION_ParseWinVersion, EmptyString)]
                    [] None None None None) st2
      /\ (forall buf,
             Some "--dll=foo --winver " = Some buf ->
             firstn 255 (strtok_all blanks buf)
             = drop_final_empty ["--dll=foo"; "--winver"; EmptyString]
             /\ parse_options no_exit initial_state (firstn 255 (strtok_all blanks buf))
                = Returns (st2, []))
      /\ (Forall (fun t => t <> EmptyString) ["--dll=foo"; "--winver"; EmptyString] ->
          st2 = mkState (Some "--dll=foo --winver ") false
                        [(fn_MODULE_AddLoadOrderOption, "foo");
                         (fn_VERSION_ParseWinVersion, EmptyString)]
                        [] None None None None).
Proof.
  apply (@inherit_round_trip no_exit ["--dll=foo"; "--winver"; EmptyString]
           (mkState (Some "--dll=foo --winver ") false
                    [(fn_MODULE_AddLoadOrderOption, "foo");
                     (fn_VERSION_ParseWinVersion, EmptyString)]
                    [] None None None None) []).
  - eapply only_inheritable_inline; [reflexivity | reflexivity |].
    eapply only_inheritable_next; [reflexivity | reflexivity | reflexivity |].
    constructor.
  - change (drop_final_empty ["--dll=foo"; "--winver"; EmptyString])
      with ["--dll=foo"; "--winver"].
    repeat constructor; discriminate.
  - change (drop_final_empty ["--dll=foo"; "--winver"; EmptyString])
      with ["--dll=foo"; "--winver"].
    simpl. lia.
  - apply Nat.ltb_lt. reflexivity.
  - reflexivity.
Defined.

(** C1 as stated fails: the value "a b" of [--dll] goes into the string as
    two words; the first pass calls the handler with "a b", the replay calls
    it with "a", finds "b" left over and ends in [OPTIONS_Usage]. *)
Lemma inherit_round_trip_counterexample :
  only_inheritable ["--dll"; "a b"]
  /\ exists st1,
      parse_options no_exit initial_state ["--dll"; "a b"] = Returns (st1, [])
      /\ calls st1 = [(fn_MODULE_AddLoadOrderOption, "a b")]
      /\ inherit_str st1 = Some "--dll a b"
      /\ parse_options no_exit initial_state (firstn 255 (strtok_all blanks "--dll a b"))
         = Returns (mkState (Some "--dll a") false
                            [(fn_MODULE_AddLoadOrderOption, "a")] [] None None None None,
                    ["b"])
      /\ inherit_options no_exit initial_state "--dll a b" = ExitProcess 0.
Proof.
  split.
  - eapply only_inheritable_next; [reflexivity | reflexivity | reflexivity |].
    constructor.
  - eexists. refine (conj _ (conj _ (conj _ (conj _ _)))); reflexivity.
Qed.

(** An empty value in the middle is lost in the same way: the two spaces
    around it are one separator for [strtok]. *)
Lemma inherit_round_trip_empty_value :
  only_inheritable ["--dll"; EmptyString; "--winver"; "win95"]
  /\ exists st1,
      parse_options no_exit initial_state ["--dll"; EmptyString; "--winver"; "win95"]
      = Returns (st1, [])
      /\ calls st1 = [(fn_MODULE_AddLoadOrderOption, EmptyString);
                      (fn_VERSION_ParseWinVersion, "win95")]
      /\ inherit_str st1 = Some "--dll  --winver win95"
      /\ inherit_options no_exit initial_state "--dll  --winver win95" = ExitProcess 0.
Proof.
  split.
  - eapply only_inheritable_next; [reflexivity | reflexivity | reflexivity |].
    eapply only_inheritable_next; [reflexivity | reflexivity | reflexivity |].
    constructor.
  - eexists. refine (conj _ (conj _ (conj _ _))); reflexivity.
Qed.

(** Nor does a vector of 256 tokens come back: the replay keeps 255 of
    them, and the last option is replayed without its value. *)
Lemma inherit_round_trip_256_tokens :
  let argv := concat (repeat ["--dll"; "x"] 128) in
  length argv = 256
  /\ match parse_options no_exit initial_state argv with
     | Returns (st1, out) =>
         out = []
         /\ nth_error (calls st1) 127 = Some (fn_MODULE_AddLoadOrderOption, "x")
         /\ match inherit_str st1 with
            | Some buf =>
                match inherit_options no_exit initial_state buf with
                | Returns st2 =>
                    nth_error (calls st2) 127
                    = Some (fn_MODULE_AddLoadOrderOption, EmptyString)
                | ExitProcess _ => False
                end
            | None => False
            end
     | ExitProcess _ => False
     end.
Proof.
  vm_compute. repeat split.
Qed.

(** ** The check after the pass *)

Lemma check_remaining_unknown (pre : list string) (r : string) (post : list string) :
  Forall (fun t => dashed t = false) pre ->
  r <> "-" ->
  check_remaining (pre ++ String "-" r :: post) = ExitProcess 0.
Proof.
  intros Hpre Hr.
  induction pre as [|a pre IH].
  - cbn [app check_remaining].
    destruct (streq (String "-" r) "--") eqn:E; [|reflexivity].
    apply String.eqb_eq in E. injection E as ->. congruence.
  - inversion Hpre as [|? ? Ha Hpre']; subst.
    cbn [app check_remaining]. rewrite (IH Hpre').
    destruct a as [|c a]; [reflexivity|].
    unfold dashed in Ha.
    destruct c as [[] [] [] [] [] [] [] []]; try reflexivity; discriminate Ha.
Qed.

(** C2: what the code does.  When the replay, if any, and the pass over the
    command line return and, among the tokens left, one that starts with
    '-' and is not [--] comes before any [--], [OPTIONS_ParseOptions] ends
    in [OPTIONS_Usage], that is with [ExitProcess(0)]: the exit code is 0,
    not 1. *)
Theorem unknown_option_exits_with_0
        (ext : handler -> string -> option Z) (st st1 st2 : state)
        (env : option string) (argv0 : string) (args pre : list string)
        (r : string) (post : list string) :
  inherit_from_env ext st env = Returns st1 ->
  parse_options ext st1 args = Returns (st2, pre ++ String "-" r :: post) ->
  Forall (fun t => dashed t = false) pre ->
  r <> "-" ->
  OPTIONS_ParseOptions ext st env argv0 args = ExitProcess 0.
Proof.
  intros Henv Hpass Hpre Hr.
  unfold OPTIONS_ParseOptions.
  rewrite Henv. cbn [bind].
  rewrite Hpass. cbn [bind snd].
  now rewrite check_remaining_unknown.
Qed.

Lemma unknown_option_exits_with_0_witness :
  OPTIONS_ParseOptions no_exit initial_state None "wine" ["-x"] = ExitProcess 0.
Proof.
  apply (@unknown_option_exits_with_0 no_exit initial_state initial_state initial_state
           None "wine" ["-x"] [] "x" []).
  - reflexivity.
  - reflexivity.
  - constructor.
  - discriminate.
Defined.

(** ** Worked examples *)

Example scan_managed :
  parse_options no_exit initial_state ["--managed"]
  = Returns (log_call (set_managed initial_state true) fn_do_managed EmptyString, []).
Proof. reflexivity. Qed.

Example scan_winver_inline :
  parse_options no_exit initial_state ["--winver=win95"; "app.exe"]
  = Returns (mkState (Some "--winver=win95") false
                     [(fn_VERSION_ParseWinVersion, "win95")] [] None None None None,
             ["app.exe"]).
Proof. reflexivity. Qed.

Example scan_dll_value :
  parse_options no_exit initial_state ["--dll"; "foo"; "app.exe"]
  = Returns (mkState (Some "--dll foo") false
                     [(fn_MODULE_AddLoadOrderOption, "foo")] [] None None None None,
             ["app.exe"]).
Proof. reflexivity. Qed.

Example scan_separator :
  OPTIONS_ParseOptions no_exit initial_state None "wine" ["-managed"; "--"; "app.exe"; "-x"]
  = Returns (log_call (set_managed initial_state true) fn_do_managed EmptyString,
             None, ["wine"; "app.exe"; "-x"]).
Proof. reflexivity. Qed.

Example scan_help : parse_options no_exit initial_state ["-h"] = ExitProcess 0.
Proof. reflexivity. Qed.

Example replay_leftover :
  inherit_options no_exit initial_state "app.exe" = ExitProcess 0.
Proof. reflexivity. Qed.

Example debugmsg_upper_case_relay :
  exists st',
    do_debugmsg initial_state "+RELAY=gdi32" = Returns st'
    /\ debug_relay_includelist st' = None
    /\ debug_snoop_includelist st' = Some [Some "GDI32"; None].
Proof. eexists. refine (conj _ (conj _ _)); reflexivity. Qed.

(** ** Further properties of the scanner *)

Lemma firstn_skipn_nonempty {A : Type} (l : list A) (pos count : nat) :
  0 < count -> pos + count <= length l -> firstn count (skipn pos l) <> [].
Proof.
  intros Hc Hle H.
  apply (f_equal (@length A)) in H.
  rewrite length_firstn, length_skipn in H. simpl in H. lia.
Qed.

(** X1. [remove_options] on [count > 0] entries at [pos], all inside the
    vector: the vector left is the part before [pos] followed by the part
    from [pos + count] on, [count] entries shorter.  Without [inherit] the
    state is untouched; with it the entries removed are appended to the
    inheritance string. *)
Theorem remove_options_closes_gap
        (st : state) (argv : list string) (pos count : nat) (inh : bool) :
  0 < count ->
  pos + count <= length argv ->
  snd (remove_options st argv pos count inh) = firstn pos argv ++ skipn (pos + count) argv
  /\ length (snd (remove_options st argv pos count inh)) + count = length argv
  /\ (inh = false -> fst (remove_options st argv pos count inh) = st)
  /\ (inh = true ->
      inherit_str (fst (remove_options st argv pos count inh))
      = append_buf (inherit_str st) (firstn count (skipn pos argv))).
Proof.
  intros Hc Hle.
  assert (Hsnd : snd (remove_options st argv pos count inh)
                 = firstn pos argv ++ skipn (pos + count) argv).
  { unfold remove_options. cbn [snd]. now rewrite shift_loop_fuel. }
  refine (conj Hsnd (conj _ (conj _ _))).
  - rewrite Hsnd, length_app, length_firstn, length_skipn. lia.
  - intros ->. reflexivity.
  - intros ->. unfold remove_options, fold_inherit. cbn [fst inherit_str set_inherit_str].
    pose proof (firstn_skipn_nonempty argv pos Hc Hle) as Hne.
    destruct (firstn count (skipn pos argv)); [congruence | reflexivity].
Qed.

Lemma remove_options_closes_gap_witness :
  snd (remove_options initial_state ["a"; "--dll"; "foo"; "b"] 1 2 true)
  = firstn 1 ["a"; "--dll"; "foo"; "b"] ++ skipn (1 + 2) ["a"; "--dll"; "foo"; "b"]
  /\ length (snd (remove_options initial_state ["a"; "--dll"; "foo"; "b"] 1 2 true)) + 2
     = length ["a"; "--dll"; "foo"; "b"]
  /\ (true = false ->
      fst (remove_options initial_state ["a"; "--dll"; "foo"; "b"] 1 2 true)
      = initial_state)
  /\ (true = true ->
      inherit_str (fst (remove_options initial_state ["a"; "--dll"; "foo"; "b"] 1 2 true))
      = append_buf (inherit_str initial_state)
                   (firstn 2 (skipn 1 ["a"; "--dll"; "foo"; "b"]))).
Proof.
  apply (@remove_options_closes_gap initial_state ["a"; "--dll"; "foo"; "b"] 1 2 true).
  - lia.
  - simpl. lia.
Defined.

(** X2. The loop of [parse_options] ends: entered at an index inside the
    vector it needs no more turns than there are entries from that index
    on, plus one; from index 0, any larger number of turns gives the result
    of [parse_options]. *)
Theorem parse_loop_terminates
        (ext : handler -> string -> option Z) (fuel : nat) (st : state)
        (argv : list string) :
  (forall i,
      i <= length argv ->
      length argv - i < fuel ->
      parse_loop ext fuel st argv i <> None)
  /\ (length argv < fuel ->
      parse_loop ext fuel st argv 0 = Some (parse_options ext st argv)).
Proof.
  split.
  - intros i Hi Hfuel.
    rewrite <- (firstn_skipn i argv) at 1.
    replace i with (length (firstn i argv)) at 3
      by (rewrite length_firstn; lia).
    rewrite parse_loop_scan by (rewrite length_skipn; lia).
    discriminate.
  - intros Hfuel.
    change (parse_loop ext fuel st argv 0)
      with (parse_loop ext fuel st ([] ++ argv) (length (@nil string))).
    rewrite parse_loop_scan by exact Hfuel.
    now rewrite map_outcome_put_back_nil, parse_options_scan.
Qed.

Lemma parse_loop_terminates_witness :
  parse_loop no_exit 3 initial_state ["a"; "--dll"; "foo"] 1 <> None
  /\ parse_loop no_exit 9 initial_state ["a"; "--dll"; "foo"] 0
     = Some (parse_options no_exit initial_state ["a"; "--dll"; "foo"]).
Proof.
  destruct (parse_loop_terminates no_exit 3 initial_state ["a"; "--dll"; "foo"])
    as [H1 _].
  destruct (parse_loop_terminates no_exit 9 initial_state ["a"; "--dll"; "foo"])
    as [_ H2].
  split.
  - apply H1; simpl; lia.
  - apply H2. simpl. lia.
Defined.

(** What [matches] takes out of a vector are groups of consumed tokens,
    and the vector is the groups and the tokens left, interleaved. *)
Lemma matches_consumed (n : nat) :
  forall argv,
    length argv <= n ->
    Forall (fun m => consumed (group_of m) (descr_of m) (snd m)) (matched argv)
    /\ merge (unmatched argv) (concat (map group_of (matched argv))) argv.
Proof.
  unfold matched, unmatched.
  induction n as [|n IH]; intros argv Hn.
  - destruct argv; [|simpl in Hn; lia]. simpl. split; constructor.
  - destruct argv as [|tok rest]; [simpl; split; constructor|].
    simpl in Hn. cbn [matches].
    destruct (lookup tok) as [| |opt ea] eqn:Hlk.
    + destruct (IH rest) as [Hall Hm]; [lia|].
      destruct (matches rest) as [ms o]. cbn [fst snd] in *.
      split; [exact Hall | now constructor].
    + cbn [fst snd map concat]. split; [constructor | apply merge_all_left].
    + assert (Hstep : forall arg g rest',
                 length rest' <= n ->
                 consumed g opt arg ->
                 Forall (fun m => consumed (group_of m) (descr_of m) (snd m))
                        (fst (let (ms, o) := matches rest' in ((g, opt, arg) :: ms, o)))
                 /\ merge (snd (let (ms, o) := matches rest' in ((g, opt, arg) :: ms, o)))
                          (concat
                             (map group_of
                                  (fst (let (ms, o) := matches rest' in
                                        ((g, opt, arg) :: ms, o)))))
                          (g ++ rest')).
      { intros arg g rest' Hlen Hg.
        destruct (IH rest' Hlen) as [Hall Hm].
        destruct (matches rest') as [ms o]. cbn [fst snd] in *.
        split; [constructor; [exact Hg | exact Hall]|].
        cbn [map concat]. now apply merge_app_right. }
      destruct ea as [v|].
      { apply (Hstep v [tok] rest); [lia | now constructor]. }
      destruct rest as [|v rest'].
      { apply (Hstep EmptyString [tok] []); [simpl; lia | now constructor]. }
      destruct (has_arg opt) eqn:Harg.
      * apply (Hstep v [tok; v] rest'); [simpl in *; lia | now constructor].
      * apply (Hstep EmptyString [tok] (v :: rest')); [simpl in *; lia | now constructor].
Qed.

(** X3. After a pass that returns, the tokens left are the ones the
    matching part leaves; the handler calls made are the calls of the
    options matched, in the order of the vector, each with its value; and
    the inheritance string is the one from before followed by the tokens
    of the matches against inheritable descriptors, in that order, each
    token separated from what is before it by one space.  The matches
    against the other descriptors ([--managed]) leave no trace in it.  Each
    match is a group of consumed tokens, and the vector is the groups and
    the tokens left, interleaved. *)
Theorem parse_options_inherit_str
        (ext : handler -> string -> option Z) (st st' : state) (argv out : list string) :
  parse_options ext st argv = Returns (st', out) ->
  out = unmatched argv
  /\ calls st' = calls st ++ map call_of (matched argv)
  /\ inherit_str st' = append_buf (inherit_str st) (inherited_tokens (matched argv))
  /\ Forall (fun m => consumed (group_of m) (descr_of m) (snd m)) (matched argv)
  /\ merge (unmatched argv) (concat (map group_of (matched argv))) argv.
Proof.
  intros H. apply parse_options_matches in H. destruct H as (Ho & Hc & Hi).
  destruct (@matches_consumed (length argv) argv (Nat.le_refl _)) as [Hall Hm].
  auto.
Qed.

Lemma parse_options_inherit_str_witness :
  ["app.exe"] = unmatched ["--dll"; "foo"; "--managed"; "app.exe"; "--winver=win95"]
  /\ [(fn_MODULE_AddLoadOrderOption, "foo"); (fn_do_managed, EmptyString);
      (fn_VERSION_ParseWinVersion, "win95")]
     = [] ++ map call_of
                 (matched ["--dll"; "foo"; "--managed"; "app.exe"; "--winver=win95"])
  /\ Some "--dll foo --winver=win95"
     = append_buf None
         (inherited_tokens
            (matched ["--dll"; "foo"; "--managed"; "app.exe"; "--winver=win95"]))
  /\ Forall (fun m => consumed (group_of m) (descr_of m) (snd m))
            (matched ["--dll"; "foo"; "--managed"; "app.exe"; "--winver=win95"])
  /\ merge (unmatched ["--dll"; "foo"; "--managed"; "app.exe"; "--winver=win95"])
           (concat
              (map group_of
                   (matched ["--dll"; "foo"; "--managed"; "app.exe"; "--winver=win95"])))
           ["--dll"; "foo"; "--managed"; "app.exe"; "--winver=win95"].
Proof.
  apply (@parse_options_inherit_str no_exit initial_state
           (mkState (Some "--dll foo --winver=win95") true
                    [(fn_MODULE_AddLoadOrderOption, "foo"); (fn_do_managed, EmptyString);
                     (fn_VERSION_ParseWinVersion, "win95")] [] None None None None)
           ["--dll"; "foo"; "--managed"; "app.exe"; "--winver=win95"] ["app.exe"]).
  reflexivity.
Defined.

(** ** Further properties of [OPTIONS_ParseOptions] *)

Lemma undashed_not_separator (a : string) : dashed a = false -> streq a "--" = false.
Proof.
  intros H. destruct (streq a "--") eqn:E; [|reflexivity].
  apply String.eqb_eq in E. subst a. discriminate H.
Qed.

Lemma check_remaining_undashed (a : string) (args : list string) :
  dashed a = false ->
  check_remaining (a :: args) = map_outcome (cons a) (check_remaining args).
Proof.
  intros Ha. cbn [check_remaining]. rewrite (undashed_not_separator a Ha).
  destruct a as [|c a]; [reflexivity|].
  unfold dashed in Ha.
  destruct c as [[] [] [] [] [] [] [] []]; try reflexivity; discriminate Ha.
Qed.

Lemma check_remaining_separator (pre post : list string) :
  Forall (fun t => dashed t = false) pre ->
  check_remaining (pre ++ "--" :: post) = Returns (pre ++ post).
Proof.
  induction 1 as [|a pre Ha _ IH]; [reflexivity|].
  cbn [app]. rewrite check_remaining_undashed by exact Ha.
  now rewrite IH.
Qed.

(** X4. With no WINEOPTIONS, a command line whose tokens before the first
    [--] do not start with '-' goes through untouched except for that
    [--], which is removed: whatever follows it, options of the table
    included, is left to the application, no handler is called and the
    inheritance string stays as it is. *)
Theorem separator_ends_options
        (ext : handler -> string -> option Z) (st : state) (argv0 : string)
        (pre post : list string) :
  Forall (fun t => dashed t = false) pre ->
  OPTIONS_ParseOptions ext st None argv0 (pre ++ "--" :: post)
  = Returns (st, inherit_str st, argv0 :: pre ++ post).
Proof.
  intros Hpre.
  unfold OPTIONS_ParseOptions. cbn [inherit_from_env GetEnvironmentVariableA bind].
  rewrite parse_options_scan, scan_skips
    by (eapply Forall_impl; [|exact Hpre]; intros t; apply lookup_undashed).
  change (scan ext st ("--" :: post)) with (Returns (A := state * list string) (st, "--" :: post)).
  cbn [map_outcome bind put_back fst snd].
  now rewrite check_remaining_separator.
Qed.

Lemma separator_ends_options_witness :
  OPTIONS_ParseOptions no_exit initial_state None "wine"
                       (["app.exe"] ++ "--" :: ["--debugmsg"; "-x"; "--"])
  = Returns (initial_state, inherit_str initial_state,
             "wine" :: ["app.exe"] ++ ["--debugmsg"; "-x"; "--"]).
Proof.
  apply (@separator_ends_options no_exit initial_state "wine" ["app.exe"]
           ["--debugmsg"; "-x"; "--"]).
  repeat constructor.
Defined.

Lemma merge_length {A : Type} (l r w : list A) :
  merge l r w -> length w = length l + length r.
Proof. induction 1; simpl; lia. Qed.

Lemma merge_merge {A : Type} (w c z : list A) :
  merge w c z -> forall a b, merge a b w -> exists d, merge a d z.
Proof.
  induction 1 as [|x w c z _ IH|x w c z _ IH]; intros a b Hab.
  - inversion Hab; subst. exists []. constructor.
  - inversion Hab as [|? a' ? ? Hab'|? ? b' ? Hab']; subst.
    + destruct (IH _ _ Hab') as [d Hd]. exists d. now constructor.
    + destruct (IH _ _ Hab') as [d Hd]. exists (x :: d). now constructor.
  - destruct (IH _ _ Hab) as [d Hd]. exists (x :: d). now constructor.
Qed.

Lemma check_remaining_merge (l : list string) :
  forall l', check_remaining l = Returns l' -> exists r, merge l' r l.
Proof.
  induction l as [|a l IH]; intros l'.
  - simpl. intros H; injection H as <-. exists []. constructor.
  - cbn [check_remaining].
    destruct (streq a "--").
    + intros H; injection H as <-. exists [a].
      apply merge_right, merge_all_left.
    + destruct (dashed a) eqn:Ha.
      * destruct a as [|c a]; [discriminate Ha|].
        unfold dashed in Ha.
        destruct c as [[] [] [] [] [] [] [] []]; try discriminate Ha.
        discriminate.
      * assert (Hstep : match a with
                        | String "-" _ => OPTIONS_Usage
                        | _ => map_outcome (cons a) (check_remaining l)
                        end = map_outcome (cons a) (check_remaining l)).
        { destruct a as [|c a]; [reflexivity|].
          unfold dashed in Ha.
          destruct c as [[] [] [] [] [] [] [] []]; try reflexivity; discriminate Ha. }
        rewrite Hstep.
        destruct (check_remaining l) as [l1|code]; cbn; [|discriminate].
        intros H; injection H as <-.
        destruct (IH l1 eq_refl) as [r Hr]. exists r. now constructor.
Qed.

(** X5. When [OPTIONS_ParseOptions] returns, [app_argv] is [argv[0]]
    followed by tokens of the command line in their original order (the
    command line is an interleaving of them and of the tokens removed), so
    [app_argc] is at most the original count; nothing is added or
    reordered.  The value written to WINEOPTIONS is the final inheritance
    string. *)
Theorem app_argv_is_subsequence
        (ext : handler -> string -> option Z) (st st' : state)
        (env env' : option string) (argv0 : string) (args argv' : list string) :
  OPTIONS_ParseOptions ext st env argv0 args = Returns (st', env', argv') ->
  exists kept removed,
    argv' = argv0 :: kept
    /\ merge kept removed args
    /\ length argv' <= S (length args)
    /\ env' = inherit_str st'.
Proof.
  unfold OPTIONS_ParseOptions.
  destruct (inherit_from_env ext st env) as [st1|c]; cbn [bind]; [|discriminate].
  destruct (parse_options ext st1 args) as [[st2 out]|c] eqn:Epass; cbn [bind snd fst];
    [|discriminate].
  destruct (check_remaining out) as [kept|c] eqn:Echk; cbn [bind]; [|discriminate].
  intros H; injection H as <- <- <-.
  apply parse_options_Scans, Scans_consumed in Epass.
  destruct Epass as (groups & cs & _ & _ & Hm).
  destruct (check_remaining_merge _ Echk) as [r Hr].
  destruct (merge_merge Hm Hr) as [d Hd].
  exists kept, d. refine (conj eq_refl (conj Hd (conj _ eq_refl))).
  apply merge_length in Hd. simpl. lia.
Qed.

Lemma app_argv_is_subsequence_witness :
  exists kept removed,
    ["wine"; "app.exe"; "-x"] = "wine" :: kept
    /\ merge kept removed ["--dll"; "foo"; "app.exe"; "--"; "-x"]
    /\ length ["wine"; "app.exe"; "-x"] <= S (length ["--dll"; "foo"; "app.exe"; "--"; "-x"])
    /\ Some "--dll foo"
       = inherit_str (mkState (Some "--dll foo") false
                              [(fn_MODULE_AddLoadOrderOption, "foo")] [] None None None None).
Proof.
  apply (@app_argv_is_subsequence no_exit initial_state
           (mkState (Some "--dll foo") false
                    [(fn_MODULE_AddLoadOrderOption, "foo")] [] None None None None)
           None (Some "--dll foo") "wine"
           ["--dll"; "foo"; "app.exe"; "--"; "-x"] ["wine"; "app.exe"; "-x"]).
  reflexivity.
Defined.

(** ** What the matching part accepts *)

Lemma lookup_long (c1 c2 : ascii) (r : string) :
  lookup (String "-" (String c1 (String c2 r)))
  = match (if Ascii.eqb c1 "-"
           then long_loop option_table (String c2 r)
                          (option_map Nat.pred (strchr (String c1 (String c2 r)) "="))
           else long_loop option_table (String c1 (String c2 r))
                          (strchr (String c1 (String c2 r)) "="))
    with
    | Some (opt, ea) => Found opt ea
    | None => Continue
    end.
Proof.
  destruct c1 as [[] [] [] [] [] [] [] []]; reflexivity.
Qed.

Lemma strchr_split (s : string) (c : ascii) :
  forall e, strchr s c = Some e ->
            s = (take e s ++ String c (advance s (S e)))%string.
Proof.
  induction s as [|a s IH]; intros e; simpl; [discriminate|].
  destruct (Ascii.eqb_spec a c) as [->|Hne].
  - intros H; injection H as <-. reflexivity.
  - destruct (strchr s c) as [k|]; [|discriminate].
    intros H; injection H as <-.
    cbn [take advance append]. f_equal. now apply IH.
Qed.

Lemma strchr_after_dash (s : string) :
  option_map Nat.pred (strchr (String "-" s) "=") = strchr s "=".
Proof.
  change (strchr (String "-" s) "=")
    with (match strchr s "=" with Some k => Some (S k) | None => None end).
  destruct (strchr s "="); reflexivity.
Qed.

Lemma long_loop_sound (table : list option_descr) (p : string) (equal : option nat)
      (opt : option_descr) (ea : option string) :
  long_loop table p equal = Some (opt, ea) ->
  match ea with
  | None => p = longname opt
  | Some v =>
      has_arg opt = true
      /\ exists e, equal = Some e /\ take e p = longname opt /\ v = advance p (S e)
  end.
Proof.
  induction table as [|o table IH]; simpl; [discriminate|].
  destruct (streq p (longname o)) eqn:Es.
  - intros H; injection H as <- <-. now apply String.eqb_eq in Es.
  - destruct equal as [e|]; [|exact IH].
    destruct (has_arg o && (strlen (longname o) =? e)%nat
              && streq (take e p) (take e (longname o))) eqn:Ec; [|exact IH].
    intros H; injection H as <- <-.
    apply andb_prop in Ec. destruct Ec as [Ec Et].
    apply andb_prop in Ec. destruct Ec as [Ha El].
    apply Nat.eqb_eq in El. apply String.eqb_eq in Et.
    split; [exact Ha|]. exists e. repeat split.
    rewrite Et, <- El. apply take_all.
Qed.

Lemma short_loop_sound (table : list option_descr) (c : ascii) (opt : option_descr) :
  short_loop table c = Some opt -> shortname opt = c.
Proof.
  induction table as [|o table IH]; simpl; [discriminate|].
  destruct (Ascii.eqb_spec (shortname o) c) as [E|_]; [|exact IH].
  intros H; injection H as <-. exact E.
Qed.

(** X6. What a match means.  A token matched with an inline value is
    [-name=value] or [--name=value] for a descriptor that takes a value,
    [name] being its long name and the value the text after the first '=';
    a token matched without one is [-name], [--name], or '-' and the short
    name.  So a flag is never matched with an inline value, and nothing is
    matched by a prefix or in another case. *)
Theorem lookup_sound (tok : string) (opt : option_descr) (ea : option string) :
  lookup tok = Found opt ea ->
  In opt option_table
  /\ match ea with
     | Some v =>
         has_arg opt = true
         /\ (tok = ("-" ++ longname opt ++ "=" ++ v)%string
             \/ tok = ("--" ++ longname opt ++ "=" ++ v)%string)
     | None =>
         tok = ("-" ++ longname opt)%string
         \/ tok = ("--" ++ longname opt)%string
         \/ tok = String "-" (String (shortname opt) EmptyString)
     end.
Proof.
  intros H. split; [eapply lookup_in_table; exact H|].
  destruct tok as [|c tok]; [discriminate H|].
  destruct (Ascii.eqb_spec c "-") as [->|Hc].
  2:{ exfalso. revert H. unfold lookup.
      destruct c as [[] [] [] [] [] [] [] []]; try discriminate.
      now contradiction Hc. }
  destruct tok as [|c1 tok].
  - (* the token "-" *)
    unfold lookup in H.
    destruct (long_loop option_table EmptyString (strchr EmptyString "="))
      as [[o e]|] eqn:E; [|discriminate H].
    injection H as -> ->. apply long_loop_sound in E.
    destruct ea as [v|].
    + destruct E as (_ & e & He & _). discriminate He.
    + left. now rewrite <- E.
  - destruct tok as [|c2 tok].
    + (* short name *)
      unfold lookup in H.
      destruct (Ascii.eqb c1 "-"); [discriminate H|].
      destruct (short_loop option_table c1) as [o|] eqn:E; [|discriminate H].
      injection H as -> <-. apply short_loop_sound in E.
      right. right. now rewrite E.
    + rewrite lookup_long in H.
      destruct (Ascii.eqb_spec c1 "-") as [->|Hc1].
      * (* two dashes *)
        destruct (long_loop option_table (String c2 tok)
                            (option_map Nat.pred (strchr (String "-" (String c2 tok)) "=")))
          as [[o e]|] eqn:E; [|discriminate H].
        injection H as -> ->. apply long_loop_sound in E.
        destruct ea as [v|].
        -- destruct E as (Ha & e & He & Ht & Hv). split; [exact Ha|]. right.
           assert (Hs : strchr (String c2 tok) "=" = Some e).
           { now rewrite strchr_after_dash in He. }
           rewrite (strchr_split _ _ Hs) at 1. rewrite Ht, <- Hv. reflexivity.
        -- right. left. now rewrite <- E.
      * (* one dash *)
        destruct (long_loop option_table (String c1 (String c2 tok))
                            (strchr (String c1 (String c2 tok)) "="))
          as [[o e]|] eqn:E; [|discriminate H].
        injection H as -> ->. apply long_loop_sound in E.
        destruct ea as [v|].
        -- destruct E as (Ha & e & He & Ht & Hv). split; [exact Ha|]. left.
           rewrite (strchr_split _ _ He) at 1. rewrite Ht, <- Hv. reflexivity.
        -- left. now rewrite <- E.
Qed.

Lemma lookup_sound_witness :
  In opt_winver option_table
  /\ has_arg opt_winver = true
  /\ ("-winver=a=b" = ("-" ++ longname opt_winver ++ "=" ++ "a=b")%string
      \/ "-winver=a=b" = ("--" ++ longname opt_winver ++ "=" ++ "a=b")%string).
Proof.
  apply (@lookup_sound "-winver=a=b" opt_winver (Some "a=b")).
  reflexivity.
Defined.

(** X7. Every descriptor of the table is reached.  Its long name matches
    after one dash or two; followed by '=' and any text it matches, with
    that text as the value, exactly when the descriptor takes a value, and
    matches nothing when it does not; its short name, when it has one,
    matches after one dash. *)
Theorem lookup_complete (opt : option_descr) :
  In opt option_table ->
  lookup ("--" ++ longname opt)%string = Found opt None
  /\ lookup ("-" ++ longname opt)%string = Found opt None
  /\ (forall v, lookup ("--" ++ longname opt ++ "=" ++ v)%string
                = if has_arg opt then Found opt (Some v) else Continue)
  /\ (forall v, lookup ("-" ++ longname opt ++ "=" ++ v)%string
                = if has_arg opt then Found opt (Some v) else Continue)
  /\ (shortname opt <> zero ->
      lookup (String "-" (String (shortname opt) EmptyString)) = Found opt None).
Proof.
  intros H.
  repeat (destruct H as [<-|H];
          [refine (conj _ (conj _ (conj _ (conj _ _))));
           try reflexivity; intros Hz; try reflexivity; now contradiction Hz|]).
  destruct H.
Qed.

Lemma lookup_complete_witness :
  lookup ("--" ++ longname opt_help)%string = Found opt_help None
  /\ lookup ("-" ++ longname opt_help)%string = Found opt_help None
  /\ (forall v, lookup ("--" ++ longname opt_help ++ "=" ++ v)%string
                = if has_arg opt_help then Found opt_help (Some v) else Continue)
  /\ (forall v, lookup ("-" ++ longname opt_help ++ "=" ++ v)%string
                = if has_arg opt_help then Found opt_help (Some v) else Continue)
  /\ (shortname opt_help <> zero ->
      lookup (String "-" (String (shortname opt_help) EmptyString)) = Found opt_help None).
Proof.
  apply (@lookup_complete opt_help).
  simpl. tauto.
Defined.

(** ** Further properties of the message-filter grammar *)

Lemma advance_append (pre s : string) : advance (pre ++ s)%string (strlen pre) = s.
Proof. induction pre as [|c pre IH]; [reflexivity | exact IH]. Qed.

Lemma advance_append_S (pre : string) (sign : ascii) (x : string) :
  advance (pre ++ String sign x)%string (S (strlen pre)) = x.
Proof. induction pre as [|c pre IH]; [reflexivity | exact IH]. Qed.

Lemma take_append (pre s : string) : take (strlen pre) (pre ++ s)%string = pre.
Proof.
  induction pre as [|c pre IH]; [reflexivity|].
  cbn [strlen String.length append take]. f_equal. exact IH.
Qed.

Lemma strchr_append_none (pre s : string) (c : ascii) :
  strchr pre c = None ->
  strchr (pre ++ s)%string c
  = match strchr s c with
    | Some k => Some (strlen pre + k)
    | None => None
    end.
Proof.
  induction pre as [|a pre IH]; intros H.
  - cbn. destruct (strchr s c); reflexivity.
  - simpl in H. cbn [append strchr].
    destruct (Ascii.eqb a c); [discriminate H|].
    destruct (strchr pre c); [discriminate H|].
    rewrite IH by reflexivity.
    destruct (strchr s c); reflexivity.
Qed.

Lemma strchr_skip (a : ascii) (s : string) (c : ascii) :
  Ascii.eqb a c = false ->
  strchr (String a s) c
  = match strchr s c with
    | Some k => Some (S k)
    | None => None
    end.
Proof. intros H. cbn [strchr]. now rewrite H. Qed.

(** A directive [pre sign x] split after [pre], with a class name [pre]. *)
Lemma do_directive_class (st : state) (pre : string) (sign : ascii) (x : string) :
  find_sign (pre ++ String sign x)%string = Some (strlen pre) ->
  pre <> EmptyString ->
  x <> EmptyString ->
  do_directive st (pre ++ String sign x)%string
  = let i := class_loop debug_class_names 0 pre in
    if (i =? DBCL_COUNT)%nat then ExitProcess 1
    else Returns (wine_dbg_add_option st (selector x)
                    (if Ascii.eqb sign "+" then uchar (Z.lor 0 (Z.shiftl 1 (Z.of_nat i)))
                     else 0%Z)
                    (if Ascii.eqb sign "+" then 0%Z
                     else uchar (Z.lor 0 (Z.shiftl 1 (Z.of_nat i))))).
Proof.
  intros Hsign Hpre Hx.
  unfold do_directive, split_directive. rewrite Hsign.
  rewrite advance_append_S.
  destruct x as [|a x]; [congruence|].
  cbv beta iota zeta.
  rewrite advance_append, take_append.
  replace (0 <? strlen pre)%nat with true
    by (destruct pre; [congruence | reflexivity]).
  unfold error, add_option, is_plus, selector. cbn [deref advance].
  destruct (class_loop debug_class_names 0 pre =? DBCL_COUNT)%nat; reflexivity.
Qed.

(** X8. A directive made of one of the four class names, a sign and a
    non-empty name forwards exactly one call for that name ("all" standing
    for the empty name): with '+' the bit of the class (1 shifted by its
    index) to set and nothing to clear, with '-' the reverse.  For '-' the
    name must hold no '+', since the split is at a '+' when there is one. *)
Theorem class_directive (st : state) (i : nat) (c x : string) :
  nth_error debug_class_names i = Some c ->
  x <> EmptyString ->
  do_directive st (c ++ "+" ++ x)%string
  = Returns (wine_dbg_add_option st (selector x) (Z.shiftl 1 (Z.of_nat i)) 0)
  /\ (strchr x "+" = None ->
      do_directive st (c ++ "-" ++ x)%string
      = Returns (wine_dbg_add_option st (selector x) 0 (Z.shiftl 1 (Z.of_nat i)))).
Proof.
  intros Hc Hx.
  assert (Hplus : strchr c "+" = None /\ strchr c "-" = None /\ c <> EmptyString
                  /\ class_loop debug_class_names 0 c = i /\ i < 4).
  { do 4 (destruct i as [|i];
          [injection Hc as <-; repeat split; try discriminate; lia|]).
    destruct i; discriminate Hc. }
  destruct Hplus as (Hp & Hm & Hne & Hloop & Hi).
  assert (Hbit : uchar (Z.lor 0 (Z.shiftl 1 (Z.of_nat i))) = Z.shiftl 1 (Z.of_nat i)).
  { do 4 (destruct i as [|i]; [reflexivity|]). lia. }
  assert (Hcount : (i =? DBCL_COUNT)%nat = false).
  { apply Nat.eqb_neq. unfold DBCL_COUNT. lia. }
  split.
  - change (c ++ "+" ++ x)%string with (c ++ String "+" x)%string.
    rewrite do_directive_class; try assumption.
    + cbv zeta. rewrite Hloop, Hcount, Hbit. reflexivity.
    + unfold find_sign. rewrite strchr_append_none by exact Hp.
      cbn. now rewrite Nat.add_0_r.
  - intros Hxp.
    change (c ++ "-" ++ x)%string with (c ++ String "-" x)%string.
    rewrite do_directive_class; try assumption.
    + cbv zeta. rewrite Hloop, Hcount, Hbit. reflexivity.
    + unfold find_sign. rewrite strchr_append_none by exact Hp.
      rewrite (strchr_skip "-" x "+" eq_refl), Hxp.
      rewrite strchr_append_none by exact Hm.
      cbn. now rewrite Nat.add_0_r.
Qed.

Lemma class_directive_witness :
  do_directive initial_state ("trace" ++ "+" ++ "all")%string
  = Returns (wine_dbg_add_option initial_state (selector "all") (Z.shiftl 1 (Z.of_nat 3)) 0)
  /\ (strchr "all" "+" = None ->
      do_directive initial_state ("trace" ++ "-" ++ "all")%string
      = Returns (wine_dbg_add_option initial_state (selector "all") 0
                                     (Z.shiftl 1 (Z.of_nat 3)))).
Proof.
  apply (@class_directive initial_state 3 "trace" "all").
  - reflexivity.
  - discriminate.
Defined.

Lemma class_loop_not_in (names : list string) (name : string) :
  forall i, ~ In name names -> class_loop names i name = i + length names.
Proof.
  induction names as [|n names IH]; intros i Hin; simpl; [lia|].
  assert (Hne : streq name n = false).
  { destruct (streq name n) eqn:E; [|reflexivity].
    apply String.eqb_eq in E. subst. exfalso. apply Hin. now left. }
  rewrite Hne.
  assert (Hrest : class_loop names (S i) name = i + S (length names)).
  { rewrite IH; [lia|]. intros H. apply Hin. now right. }
  destruct (negb (strlen n =? strlen name)%nat); exact Hrest.
Qed.

(** X9. A directive whose text before the split point is not empty and is
    not, character for character, one of "fixme", "err", "warn", "trace"
    takes the [error:] exit: class names are not matched by prefix or in
    another case. *)
Theorem unknown_class_is_error (st : state) (d : string) (k : nat) :
  split_directive d = Some k ->
  0 < k ->
  ~ In (take k d) debug_class_names ->
  do_directive st d = ExitProcess 1.
Proof.
  intros Hsplit Hk Hin.
  unfold do_directive. rewrite Hsplit. cbv zeta.
  replace (0 <? k)%nat with true by (symmetry; apply Nat.ltb_lt; exact Hk).
  rewrite class_loop_not_in by exact Hin.
  reflexivity.
Qed.

Lemma unknown_class_is_error_witness :
  do_directive initial_state "WARN+heap" = ExitProcess 1.
Proof.
  apply (@unknown_class_is_error initial_state "WARN+heap" 4).
  - reflexivity.
  - lia.
  - simpl. intros [H|[H|[H|[H|[]]]]]; discriminate H.
Defined.

(** X10. A directive that starts with its sign and goes on with a non-empty
    name other than a [relay=] or [snoop=] keyword forwards exactly one call
    for that name ("all" standing for the empty name): every bit to set
    after '+', every bit to clear after '-' (the name holding no '+'). *)
Theorem classless_directive (st : state) (x : string) :
  x <> EmptyString ->
  strncaseeq x "relay=" = false ->
  strncaseeq x "snoop=" = false ->
  do_directive st (String "+" x)
  = Returns (wine_dbg_add_option st (selector x) all_bits 0)
  /\ (strchr x "+" = None ->
      do_directive st (String "-" x)
      = Returns (wine_dbg_add_option st (selector x) 0 all_bits)).
Proof.
  intros Hx Hr Hs.
  destruct x as [|a x]; [congruence|].
  split.
  - unfold do_directive, split_directive, find_sign.
    cbn [strchr]. change (Ascii.eqb "+" "+") with true. cbv beta iota zeta.
    cbn [advance Nat.ltb Nat.leb]. rewrite Hr, Hs. reflexivity.
  - intros Hxp.
    unfold do_directive, split_directive, find_sign.
    rewrite (strchr_skip "-" (String a x) "+" eq_refl), Hxp.
    cbn [strchr]. change (Ascii.eqb "-" "-") with true. cbv beta iota zeta.
    cbn [advance Nat.ltb Nat.leb]. rewrite Hr, Hs. reflexivity.
Qed.

Lemma classless_directive_witness :
  do_directive initial_state (String "+" "heap")
  = Returns (wine_dbg_add_option initial_state (selector "heap") all_bits 0)
  /\ (strchr "heap" "+" = None ->
      do_directive initial_state (String "-" "heap")
      = Returns (wine_dbg_add_option initial_state (selector "heap") 0 all_bits)).
Proof.
  apply (@classless_directive initial_state "heap").
  - discriminate.
  - reflexivity.
  - reflexivity.
Defined.

Lemma all_delims_no_token (delims s : string) :
  all_delims delims s = true -> strtok_all delims s = [].
Proof.
  induction s as [|c s IH]; [reflexivity|].
  simpl. intros H. apply andb_prop in H. destruct H as [Hc Hs].
  rewrite Hc. auto.
Qed.

Lemma some_token (delims s : string) :
  all_delims delims s = false -> strtok_all delims s <> [].
Proof.
  induction s as [|c s IH]; [discriminate|].
  simpl. destruct (is_delim delims c); simpl; [exact IH|].
  intros _. destruct (starts_token delims s); [|discriminate].
  destruct (strtok_all delims s); discriminate.
Qed.

Lemma strtok_all_comma (d rest : string) :
  d <> EmptyString ->
  strchr d "," = None ->
  strtok_all "," (d ++ "," ++ rest)%string = d :: strtok_all "," rest.
Proof.
  intros Hd Hc.
  rewrite strtok_all_token; [reflexivity | exact Hd | | reflexivity].
  now apply strchr_no_delim.
Qed.

Lemma bind_Returns {A : Type} (m : outcome A) : (x <- m ;; Returns x) = m.
Proof. destruct m; reflexivity. Qed.

(** X11. [do_debugmsg] applies its directives from left to right: for a
    first directive [d] (not empty, no comma in it), the argument [d,rest]
    is [d] followed, when [d] returns, by [rest] if [rest] holds anything
    but commas; a directive that takes the [error:] exit ends the process
    after the calls of the earlier ones have been made.  A single directive
    is the whole argument; a comma in front is skipped. *)
Theorem do_debugmsg_sequence (st : state) (d : string) :
  d <> EmptyString ->
  strchr d "," = None ->
  (forall rest,
      do_debugmsg st (d ++ "," ++ rest)%string
      = st1 <- do_directive st d ;;
        if all_delims "," rest then Returns st1 else do_debugmsg st1 rest)
  /\ do_debugmsg st d = do_directive st d
  /\ (forall s, do_debugmsg st (String "," s) = do_debugmsg st s).
Proof.
  intros Hd Hc.
  refine (conj _ (conj _ _)).
  - intros rest. unfold do_debugmsg.
    rewrite strtok_all_comma by assumption.
    cbn [do_directives].
    destruct (do_directive st d) as [st1|code]; cbn [bind]; [|reflexivity].
    destruct (all_delims "," rest) eqn:E.
    + now rewrite all_delims_no_token.
    + apply some_token in E.
      destruct (strtok_all "," rest); [congruence | reflexivity].
  - unfold do_debugmsg.
    rewrite strtok_all_single by (assumption || now apply strchr_no_delim).
    cbn [do_directives]. apply bind_Returns.
  - intros s. reflexivity.
Qed.

Lemma do_debugmsg_sequence_witness :
  (forall rest,
      do_debugmsg initial_state ("warn+heap" ++ "," ++ rest)%string
      = st1 <- do_directive initial_state "warn+heap" ;;
        if all_delims "," rest then Returns st1 else do_debugmsg st1 rest)
  /\ do_debugmsg initial_state "warn+heap" = do_directive initial_state "warn+heap"
  /\ (forall s, do_debugmsg initial_state (String "," s) = do_debugmsg initial_state s).
Proof.
  apply (@do_debugmsg_sequence initial_state "warn+heap").
  - discriminate.
  - reflexivity.
Defined.

Lemma store_list_dbg_options (st : state) (slot : module_slot) (l : module_list) :
  dbg_options (store_list st slot l) = dbg_options st.
Proof. destruct slot; reflexivity. Qed.

Lemma do_directive_one_call (st st' : state) (d : string) :
  do_directive st d = Returns st' ->
  exists x, dbg_options st' = dbg_options st ++ [x].
Proof.
  unfold do_directive, error.
  destruct (split_directive d) as [k|]; [|discriminate].
  destruct (0 <? k)%nat.
  - destruct (_ =? DBCL_COUNT)%nat; [discriminate|].
    intros H; injection H as <-. eexists. reflexivity.
  - destruct (_ || _); intros H; injection H as <-.
    + eexists. unfold add_option. cbn [wine_dbg_add_option dbg_options].
      rewrite store_list_dbg_options. reflexivity.
    + eexists. reflexivity.
Qed.

Lemma do_directives_calls (opts : list string) :
  forall st st',
    do_directives st opts = Returns st' ->
    exists l, dbg_options st' = dbg_options st ++ l /\ length l = length opts.
Proof.
  induction opts as [|d opts IH]; intros st st'; cbn [do_directives].
  - intros H; injection H as <-. exists []. now rewrite app_nil_r.
  - destruct (do_directive st d) as [st1|code] eqn:E; cbn [bind]; [|discriminate].
    intros H. destruct (do_directive_one_call _ _ E) as [x Hx].
    destruct (IH _ _ H) as (l & Hl & Hlen).
    exists (x :: l). split; [|simpl; lia].
    rewrite Hl, Hx, <- app_assoc. reflexivity.
Qed.

(** X12. A [do_debugmsg] that returns has made one call of
    [wine_dbg_add_option] for each directive of its argument, at least one,
    and has not touched the inheritance string, [Options.managed] or the
    record of handler calls. *)
Theorem do_debugmsg_one_call_per_directive (st st' : state) (arg : string) :
  do_debugmsg st arg = Returns st' ->
  inherit_str st' = inherit_str st
  /\ managed st' = managed st
  /\ calls st' = calls st
  /\ exists l,
      dbg_options st' = dbg_options st ++ l
      /\ length l = length (strtok_all "," arg)
      /\ l <> [].
Proof.
  intros H.
  destruct (do_debugmsg_frame _ _ H) as (H1 & H2 & H3).
  refine (conj H1 (conj H2 (conj H3 _))).
  unfold do_debugmsg, error in H.
  destruct (strtok_all "," arg) as [|d opts] eqn:E; [discriminate H|].
  destruct (do_directives_calls _ _ H) as (l & Hl & Hlen).
  exists l. refine (conj Hl (conj Hlen _)).
  intros ->. discriminate Hlen.
Qed.

Lemma do_debugmsg_one_call_per_directive_witness :
  inherit_str (wine_dbg_add_option
                 (wine_dbg_add_option initial_state EmptyString all_bits 0)
                 "heap" 0 4) = inherit_str initial_state
  /\ managed (wine_dbg_add_option
                (wine_dbg_add_option initial_state EmptyString all_bits 0)
                "heap" 0 4) = managed initial_state
  /\ calls (wine_dbg_add_option
              (wine_dbg_add_option initial_state EmptyString all_bits 0)
              "heap" 0 4) = calls initial_state
  /\ exists l,
      dbg_options (wine_dbg_add_option
                     (wine_dbg_add_option initial_state EmptyString all_bits 0)
                     "heap" 0 4)
      = dbg_options initial_state ++ l
      /\ length l = length (strtok_all "," ",+all,,warn-heap,")
      /\ l <> [].
Proof.
  apply (@do_debugmsg_one_call_per_directive initial_state
           (wine_dbg_add_option
              (wine_dbg_add_option initial_state EmptyString all_bits 0)
              "heap" 0 4)
           ",+all,,warn-heap,").
  reflexivity.
Defined.

Lemma split_directive_find_sign (d : string) (k : nat) :
  split_directive d = Some k -> find_sign d = Some k.
Proof.
  unfold split_directive.
  destruct (find_sign d) as [k0|]; [|discriminate].
  destruct (advance d (S k0)); [discriminate|].
  intros H; injection H as <-. reflexivity.
Qed.

(** X13. A directive changes at most one of the four module lists, and
    only a directive that starts with its sign and goes on with [relay=]
    or [snoop=] changes any: a list that differs after a directive that
    returns is the one chosen from the sign and the letter after it. *)
Theorem directive_touches_one_list
        (st st' : state) (d : string) (slot : module_slot) :
  do_directive st d = Returns st' ->
  load_list st' slot <> load_list st slot ->
  find_sign d = Some 0
  /\ strncaseeq (advance d 1) "relay=" || strncaseeq (advance d 1) "snoop=" = true
  /\ slot = select_output d.
Proof.
  unfold do_directive, error.
  destruct (split_directive d) as [k|] eqn:Es; [|discriminate].
  apply split_directive_find_sign in Es.
  destruct k as [|k].
  - cbv beta iota zeta. rewrite !advance_0.
    change (0 <? 0)%nat with false. cbv iota.
    destruct (strncaseeq (advance d 1) "relay=" || strncaseeq (advance d 1) "snoop=").
    + intros H; injection H as <-. intros Hne.
      refine (conj Es (conj eq_refl _)).
      destruct slot, (select_output d); try reflexivity;
        exfalso; apply Hne; reflexivity.
    + intros H; injection H as <-. intros Hne.
      exfalso. apply Hne. destruct slot; reflexivity.
  - change (0 <? S k)%nat with true. cbv beta iota zeta.
    destruct (_ =? DBCL_COUNT)%nat; [discriminate|].
    intros H; injection H as <-. intros Hne.
    exfalso. apply Hne. destruct slot; reflexivity.
Qed.

Lemma directive_touches_one_list_witness :
  find_sign "-relay=gdi32" = Some 0
  /\ strncaseeq (advance "-relay=gdi32" 1) "relay="
     || strncaseeq (advance "-relay=gdi32" 1) "snoop=" = true
  /\ relay_exclude = select_output "-relay=gdi32".
Proof.
  apply (@directive_touches_one_list initial_state
           (wine_dbg_add_option
              (store_list initial_state relay_exclude [Some "GDI32"; None])
              "relay" all_bits 0)
           "-relay=gdi32" relay_exclude).
  - reflexivity.
  - discriminate.
Defined.

(** ** Further properties of the inheritance and of the exits *)

(** X14. Inherited options are handed down.  When WINEOPTIONS holds
    inheritable options with their values, joined by single spaces (at most
    255 tokens, none empty or holding a blank, the whole of it fitting the
    buffer it is read into), and [OPTIONS_ParseOptions] returns, then the
    handlers have been called for the inherited options first and for the
    options matched on the command line after them, and the value written
    to WINEOPTIONS is the value read followed by the tokens of the
    inheritable options matched on the command line, in their order: the
    inherited part is neither lost nor changed. *)
Theorem inherited_options_are_handed_down
        (ext : handler -> string -> option Z) (st st' : state)
        (inherited : list string) (env' : option string)
        (argv0 : string) (args argv' : list string) :
  inherit_str st = None ->
  only_inheritable inherited ->
  Forall plain_token inherited ->
  length inherited <= 255 ->
  inherited <> [] ->
  strlen (strcat_tokens EmptyString inherited) < buffer_size ->
  OPTIONS_ParseOptions ext st (Some (strcat_tokens EmptyString inherited)) argv0 args
  = Returns (st', env', argv') ->
  calls st' = calls st ++ map call_of (matched inherited) ++ map call_of (matched args)
  /\ env' = inherit_str st'
  /\ env' = append_buf (Some (strcat_tokens EmptyString inherited))
                       (inherited_tokens (matched args)).
Proof.
  intros Hnull Hopts Hplain Hlen Hne Hfit.
  pose proof (strtok_all_join Hplain) as Htok.
  unfold OPTIONS_ParseOptions, inherit_from_env, GetEnvironmentVariableA.
  rewrite take_fits by (unfold buffer_size in *; lia).
  destruct (strcat_tokens EmptyString inherited) as [|c b] eqn:Eb.
  { cbn in Htok. congruence. }
  unfold inherit_options.
  rewrite Htok, firstn_all2 by exact Hlen.
  destruct (parse_options ext st inherited) as [[st1 out1]|code] eqn:Ereplay;
    cbn [bind]; [|discriminate].
  pose proof (parse_options_matches _ _ _ Ereplay) as (_ & Hcalls1 & _).
  rewrite parse_options_scan in Ereplay.
  apply (scan_only_inheritable ext Hopts) in Ereplay.
  destruct Ereplay as [-> Hbuf]. cbn [snd fst bind].
  destruct (parse_options ext st1 args) as [[st2 out]|code] eqn:Epass;
    cbn [bind snd fst]; [|discriminate].
  destruct (check_remaining out) as [kept|code]; cbn [bind]; [|discriminate].
  intros H; injection H as <- <- <-.
  apply parse_options_matches in Epass.
  destruct Epass as (_ & Hcalls2 & Hstr).
  refine (conj _ (conj eq_refl _)).
  - rewrite Hcalls2, Hcalls1, <- app_assoc. reflexivity.
  - rewrite Hstr, Hbuf, Hnull.
    destruct inherited as [|t inherited]; [congruence|].
    change (append_buf None (t :: inherited))
      with (Some (strcat_tokens EmptyString (t :: inherited))).
    now rewrite Eb.
Qed.

Lemma inherited_options_are_handed_down_witness :
  [(fn_VERSION_ParseWinVersion, "win95"); (fn_do_managed, EmptyString);
   (fn_MODULE_AddLoadOrderOption, "b")]
  = [] ++ map call_of (matched ["--winver"; "win95"])
       ++ map call_of (matched ["--managed"; "app.exe"; "--dll=b"])
  /\ Some "--winver win95 --dll=b" = Some "--winver win95 --dll=b"
  /\ Some "--winver win95 --dll=b"
     = append_buf (Some (strcat_tokens EmptyString ["--winver"; "win95"]))
                  (inherited_tokens (matched ["--managed"; "app.exe"; "--dll=b"])).
Proof.
  apply (@inherited_options_are_handed_down no_exit initial_state
           (mkState (Some "--winver win95 --dll=b") true
                    [(fn_VERSION_ParseWinVersion, "win95"); (fn_do_managed, EmptyString);
                     (fn_MODULE_AddLoadOrderOption, "b")] [] None None None None)
           ["--winver"; "win95"] (Some "--winver win95 --dll=b") "wine"
           ["--managed"; "app.exe"; "--dll=b"] ["wine"; "app.exe"]).
  - reflexivity.
  - eapply only_inheritable_next; [reflexivity | reflexivity | reflexivity |].
    constructor.
  - repeat constructor; discriminate.
  - simpl. lia.
  - discriminate.
  - apply Nat.ltb_lt. reflexivity.
  - reflexivity.
Defined.

Lemma all_delims_take (n : nat) (delims : string) :
  forall s, all_delims delims s = true -> all_delims delims (take n s) = true.
Proof.
  induction n as [|n IH]; intros [|c s]; cbn [take all_delims]; try reflexivity.
  intros H. apply andb_true_iff in H. destruct H as [Hc Hs].
  rewrite Hc. cbn [andb]. now apply IH.
Qed.

(** X15. A WINEOPTIONS that is not set, is empty, or holds only spaces and
    tabs is no replay at all: the state is the same after it, and
    [OPTIONS_ParseOptions] goes on as without the variable. *)
Theorem replay_of_nothing
        (ext : handler -> string -> option Z) (st : state) (env : option string) :
  (env = None \/ exists s, env = Some s /\ all_delims blanks s = true) ->
  inherit_from_env ext st env = Returns st
  /\ forall argv0 args,
      OPTIONS_ParseOptions ext st env argv0 args
      = OPTIONS_ParseOptions ext st None argv0 args.
Proof.
  intros H.
  assert (Hret : inherit_from_env ext st env = Returns st).
  { destruct H as [->|(s & -> & Hs)]; [reflexivity|].
    unfold inherit_from_env, GetEnvironmentVariableA.
    apply (all_delims_take (buffer_size - 1)) in Hs.
    destruct (take (buffer_size - 1) s) as [|c b]; [reflexivity|].
    unfold inherit_options.
    rewrite all_delims_no_token by exact Hs.
    reflexivity. }
  split; [exact Hret|].
  intros argv0 args. unfold OPTIONS_ParseOptions. rewrite Hret. reflexivity.
Qed.

Lemma replay_of_nothing_witness :
  inherit_from_env no_exit initial_state (Some "   ") = Returns initial_state
  /\ forall argv0 args,
      OPTIONS_ParseOptions no_exit initial_state (Some "   ") argv0 args
      = OPTIONS_ParseOptions no_exit initial_state None argv0 args.
Proof.
  apply (@replay_of_nothing no_exit initial_state (Some "   ")).
  right. exists "   ". split; reflexivity.
Defined.

Lemma call_managed (ext : handler -> string -> option Z)
      (h : handler) (st st1 : state) (arg : string) :
  call ext h st arg = Returns st1 ->
  managed st1
  = managed st || (handler_index h =? handler_index fn_do_managed)%nat.
Proof.
  unfold call, external, do_help, do_version, do_managed, OPTIONS_Usage.
  destruct h; try discriminate;
    try (destruct (ext _ arg); [discriminate|]);
    try (intros H; injection H as <-; cbn; now rewrite ?orb_false_r, ?orb_true_r).
  intros H. apply do_debugmsg_frame in H.
  destruct H as (_ & H2 & _). cbn. now rewrite H2, orb_false_r.
Qed.

Lemma fold_inherit_managed (st : state) (g : list string) (inh : bool) :
  managed (fold_inherit st g inh) = managed st.
Proof. destruct inh; reflexivity. Qed.

Lemma Scans_managed (ext : handler -> string -> option Z)
      (st st' : state) (rest out : list string) :
  Scans ext st rest st' out ->
  exists cs,
    calls st' = calls st ++ cs
    /\ managed st' = managed st || calls_managed cs.
Proof.
  induction 1 as [st | st tok rest st' out Hlk _ IH | st tok rest Hlk
                 | st g opt arg rest st1 st' out Hg Hcall _ IH].
  - exists []. rewrite app_nil_r, orb_false_r. auto.
  - exact IH.
  - exists []. rewrite app_nil_r, orb_false_r. auto.
  - destruct IH as (cs & Hc & Hm).
    pose proof (call_managed _ _ _ _ Hcall) as Hm1.
    apply call_returns in Hcall. destruct Hcall as [_ Hcall].
    rewrite fold_inherit_calls, Hcall, <- app_assoc in Hc.
    rewrite fold_inherit_managed, Hm1 in Hm.
    exists ((func opt, arg) :: cs). split; [exact Hc|].
    rewrite Hm. unfold calls_managed. cbn [existsb fst].
    now rewrite orb_assoc.
Qed.

(** X16. [Options.managed] after a pass that returns is set exactly when
    it was set before or the pass has called [do_managed]: no other handler
    sets it and nothing clears it. *)
Theorem managed_only_by_option
        (ext : handler -> string -> option Z) (st st' : state) (argv out : list string) :
  parse_options ext st argv = Returns (st', out) ->
  exists cs,
    calls st' = calls st ++ cs
    /\ managed st' = managed st || calls_managed cs.
Proof.
  intros H. apply parse_options_Scans in H. now apply Scans_managed in H.
Qed.

Lemma managed_only_by_option_witness :
  exists cs,
    [(fn_VERSION_ParseWinVersion, "win95"); (fn_do_managed, EmptyString)] = [] ++ cs
    /\ true = false || calls_managed cs.
Proof.
  apply (@managed_only_by_option no_exit initial_state
           (mkState (Some "--winver win95") true
                    [(fn_VERSION_ParseWinVersion, "win95"); (fn_do_managed, EmptyString)]
                    [] None None None None)
           ["--winver"; "win95"; "app.exe"; "-managed"] ["app.exe"]).
  reflexivity.
Defined.






(** ** Sizes of what is allocated *)

Lemma strcat_tokens_strlen (toks : list string) :
  toks <> [] ->
  forall buf, strlen (strcat_tokens buf toks) + 1 = strlen buf + tokens_len toks.
Proof.
  induction toks as [|t toks IH]; [congruence|]. intros _ buf.
  destruct toks as [|t2 toks].
  - cbn [strcat_tokens tokens_len]. rewrite length_append. lia.
  - change (strcat_tokens buf (t :: t2 :: toks))
      with (strcat_tokens (buf ++ t ++ " ")%string (t2 :: toks)).
    rewrite IH by discriminate.
    rewrite !length_append. change (strlen " ") with 1.
    cbn [tokens_len]. lia.
Qed.

(** X18. The inheritance string, with the NUL that ends it, fills exactly
    the size asked from [malloc] or [realloc] in [remove_options], for one
    token or more: the [strcat] calls stay inside the allocation and no
    byte of it is left over. *)
Theorem inherit_str_fills_allocation (st : state) (toks : list string) :
  toks <> [] ->
  exists s,
    inherit_str (fold_inherit st toks true) = Some s
    /\ strlen s + 1 = alloc_size st toks.
Proof.
  intros Hne. unfold fold_inherit, alloc_size.
  cbn [inherit_str set_inherit_str].
  eexists. split; [reflexivity|].
  rewrite strcat_tokens_strlen by exact Hne.
  destruct (inherit_str st) as [s|]; [|reflexivity].
  rewrite length_append. change (strlen " ") with 1. lia.
Qed.

Lemma inherit_str_fills_allocation_witness :
  exists s,
    inherit_str (fold_inherit (set_inherit_str initial_state (Some "--dll a"))
                              ["--winver"; "win95"] true) = Some s
    /\ strlen s + 1
       = alloc_size (set_inherit_str initial_state (Some "--dll a")) ["--winver"; "win95"].
Proof.
  apply (@inherit_str_fills_allocation
           (set_inherit_str initial_state (Some "--dll a")) ["--winver"; "win95"]).
  discriminate.
Defined.

Lemma colon_fields_count (s : string) :
  forall i, length (fst (colon_fields s)) + i = count_slots s i.
Proof.
  induction s as [|c s IH]; intros i; [reflexivity|].
  cbn [colon_fields count_slots].
  specialize (IH (if Ascii.eqb c ":" then S i else i)).
  destruct (colon_fields s) as [fs last]. cbn [fst] in IH.
  destruct (Ascii.eqb c ":").
  - cbn [fst length]. lia.
  - destruct fs; cbn [fst length] in *; lia.
Qed.

(** X19. The module list built for a [relay=] or [snoop=] directive has as
    many entries, the NULL included, as the slots counted for [malloc]: two
    more than there are ':' after the '='.  The stores into the array stay
    inside it, whatever the directive and the length [l]. *)
Theorem module_list_fits_allocation (p : string) (l : nat) :
  length (build_list p l) = count_slots (advance p 7) 2.
Proof.
  unfold build_list.
  rewrite <- colon_fields_count.
  destruct (colon_fields (advance p 7)) as [fs last].
  rewrite length_app, length_map. cbn [fst length]. lia.
Qed.

(** ** What a replay that returns has consumed *)

Lemma merge_nil_left {A : Type} (r w : list A) : merge [] r w -> r = w.
Proof.
  intros H. remember [] as l eqn:El.
  induction H; try discriminate; [reflexivity|].
  f_equal. auto.
Qed.

(** X20. A replay that returns has consumed every token it cut out of the
    source (the first 255 at most): the tokens are, in order, the option
    triggers and values of the handler calls it made, with nothing between
    them, no [--] and no program name. *)
Theorem replay_consumes_every_token
        (ext : handler -> string -> option Z) (st st' : state) (source : string) :
  inherit_options ext st source = Returns st' ->
  exists groups cs,
    firstn 255 (strtok_all blanks source) = concat groups
    /\ Forall2 consumed_call groups cs
    /\ calls st' = calls st ++ cs.
Proof.
  unfold inherit_options.
  destruct (parse_options ext st (firstn 255 (strtok_all blanks source)))
    as [[st2 out]|c] eqn:E; cbn; [|discriminate].
  destruct out; [|discriminate].
  intros H; injection H as <-.
  apply parse_options_Scans, Scans_consumed in E.
  destruct E as (groups & cs & Hc & Hf & Hm).
  exists groups, cs. refine (conj _ (conj Hf Hc)).
  symmetry. now apply merge_nil_left.
Qed.

Lemma replay_consumes_every_token_witness :
  exists groups cs,
    firstn 255 (strtok_all blanks " --dll  foo -managed") = concat groups
    /\ Forall2 consumed_call groups cs
    /\ [(fn_MODULE_AddLoadOrderOption, "foo"); (fn_do_managed, EmptyString)] = [] ++ cs.
Proof.
  apply (@replay_consumes_every_token no_exit initial_state
           (mkState (Some "--dll foo") true
                    [(fn_MODULE_AddLoadOrderOption, "foo"); (fn_do_managed, EmptyString)]
                    [] None None None None)
           " --dll  foo -managed").
  reflexivity.
Defined.
